(** * Shallow embedding of ms-sbom-export ([src/main.py], [export_sbom])

    The endpoint [/msapi/sbom] is modelled stage by stage:
    identifier normalisation, environment scope resolution, the best-effort
    enrichment fetch and its staging tables, the package/vulnerability
    left merge, the categorical risk sort, the per-severity partition, the
    CVE link rendering and the outer retry loop.  SQL statements issued to
    the database are modelled by the relational algebra they denote
    (selection, projection, [DISTINCT], [UNION], [ROW_NUMBER]); pandas
    operations by the list operations they perform. *)

From Stdlib Require Import List String Ascii ZArith Bool Lia.
From Stdlib Require Import Sorting.Sorted Sorting.Permutation RelationClasses.
Import ListNotations.
Open Scope string_scope.

(* ------------------------------------------------------------------ *)
(** ** Python string helpers *)

(** [s[n:]] *)
Definition py_slice_from (n : nat) (s : string) : string :=
  substring n (length s - n) s.

(** [s.startswith(p)] *)
Definition py_startswith (s p : string) : bool := prefix p s.

(** ['/'] *)
Definition slash : ascii := "/"%char.

(** [s.split(sep)]: Python keeps empty fields, so the result is never empty. *)
Fixpoint py_split (sep : ascii) (s : string) : list string :=
  match s with
  | EmptyString => [EmptyString]
  | String c s' =>
      if Ascii.eqb c sep then EmptyString :: py_split sep s'
      else match py_split sep s' with
           | [] => [String c EmptyString]
           | w :: ws => String c w :: ws
           end
  end.

(** [xs[-1]] on a non-empty list. *)
Definition py_last (xs : list string) : string := last xs EmptyString.

(** [sep not in s] *)
Fixpoint no_char (sep : ascii) (s : string) : bool :=
  match s with
  | EmptyString => true
  | String c s' => negb (Ascii.eqb c sep) && no_char sep s'
  end.

(** A double-quote character, as a one-character string. *)
Definition dq : string := String (ascii_of_nat 34) EmptyString.

(* ------------------------------------------------------------------ *)
(** ** [make_clickable] (lines 38-40) *)

Definition make_clickable (url : string) : string :=
  let anchor := py_last (py_split slash url) in
  "<a href=" ++ dq ++ url ++ dq ++ ">" ++ anchor ++ "</a>".

Definition osv_prefix : string := "https://osv.dev/vulnerability/".

(** [df["CVE"].apply(lambda x: make_clickable(osv + x) if len(x) > 0 else x)]
    (line 420) *)
Definition cve_cell (x : string) : string :=
  if Nat.ltb 0 (length x) then make_clickable (osv_prefix ++ x) else x.

(* ------------------------------------------------------------------ *)
(** ** Identifier normalisation (lines 139-146) *)

Definition normalize_compid (compid : option string) : option string :=
  match compid with
  | Some s => if py_startswith s "cv" || py_startswith s "co"
              then Some (py_slice_from 2 s) else Some s
  | None => None
  end.

Definition normalize_appid (appid : option string) : option string :=
  match appid with
  | Some s => if py_startswith s "av" || py_startswith s "ap"
              then Some (py_slice_from 2 s) else Some s
  | None => None
  end.

Definition normalize_envid (envid : option string) : option string :=
  match envid with
  | Some s => if py_startswith s "en" then Some (py_slice_from 2 s) else Some s
  | None => None
  end.

Record ids := mk_ids { compid : option string; appid : option string; envid : option string }.

Definition normalize_ids (i : ids) : ids :=
  mk_ids (normalize_compid (compid i)) (normalize_appid (appid i)) (normalize_envid (envid i)).

(* ------------------------------------------------------------------ *)
(** ** Package rows, vulnerability rows and the left merge (lines 384-400) *)

(** A row of [df_pkgs]: the columns selected by the three SBOM queries. *)
Record pkg_row := mk_pkg {
  appname : string;
  deploymentid : Z;
  packagename : string;
  packageversion : string;
  name : option string;
  url : option string;
  summary : option string;
  compname : string;
  purl : option string;
  pkgtype : option string }.

(** A row of the vulnerability tables [dm_vulns] / [dm.dm_vulns]:
    [id, packagename, packageversion, purl, summary as cve_summary, risklevel]. *)
Record vuln_row := mk_vuln {
  v_id : string;
  v_packagename : string;
  v_packageversion : string;
  v_purl : option string;
  v_cve_summary : option string;
  v_risklevel : option string }.

Definition opt_eq_dec {A} (d : forall x y : A, {x = y} + {x <> y})
  : forall x y : option A, {x = y} + {x <> y}.
Proof. decide equality. Defined.

Definition pkg_row_eq_dec : forall x y : pkg_row, {x = y} + {x <> y}.
Proof.
  decide equality;
    first [apply string_dec | apply Z.eq_dec | apply (opt_eq_dec string_dec)].
Defined.

Definition vuln_row_eq_dec : forall x y : vuln_row, {x = y} + {x <> y}.
Proof.
  decide equality; first [apply string_dec | apply (opt_eq_dec string_dec)].
Defined.

(** SQL [UNION] of two [SELECT DISTINCT] results: duplicates removed. *)
Definition sql_union (a b : list vuln_row) : list vuln_row :=
  nodup vuln_row_eq_dec (a ++ b).

(** [pkglist = (df_pkgs["packagename"] + "@" + df_pkgs["packageversion"]).to_list()] *)
Definition pkglist (pkgs : list pkg_row) : list string :=
  map (fun p => packagename p ++ "@" ++ packageversion p) pkgs.

(** [purllist = df_pkgs.loc[df_pkgs["purl"].notnull()]["purl"].to_list()] *)
Definition purllist (pkgs : list pkg_row) : list string :=
  flat_map (fun p => match purl p with Some u => [u] | None => [] end) pkgs.

Definition str_in (s : string) (l : list string) : bool :=
  existsb (String.eqb s) l.

(** [where (packagename || '@' || packageversion) = ANY(:pkglist)
     or purl = ANY(:purllist)]; a NULL purl compares as unknown, i.e. false. *)
Definition vuln_selected (pl ul : list string) (v : vuln_row) : bool :=
  str_in (v_packagename v ++ "@" ++ v_packageversion v) pl
  || match v_purl v with Some u => str_in u ul | None => false end.

(** The candidate query: staged [dm_vulns] union persisted [dm.dm_vulns]. *)
Definition candidate_vulns (pkgs : list pkg_row) (staged persisted : list vuln_row)
  : list vuln_row :=
  let pl := pkglist pkgs in
  let ul := purllist pkgs in
  sql_union (filter (vuln_selected pl ul) staged)
            (filter (vuln_selected pl ul) persisted).

(** Merge key [on=["packagename", "packageversion"]]. *)
Definition same_key (p : pkg_row) (v : vuln_row) : bool :=
  String.eqb (packagename p) (v_packagename v)
  && String.eqb (packageversion p) (v_packageversion v).

(** [df_pkgs.merge(df_vulns, how="left", on=[...])]: left rows in order, each
    paired with its matches in right order, or once with missing columns. *)
Definition merge_left (pkgs : list pkg_row) (vulns : list vuln_row)
  : list (pkg_row * option vuln_row) :=
  flat_map (fun p =>
              match filter (same_key p) vulns with
              | [] => [(p, None)]
              | ms => map (fun v => (p, Some v)) ms
              end) pkgs.

(** [if len(df_pkgs.index) > 0: ... df = df_pkgs.merge(df_vulns, ...)] *)
Definition correlate (pkgs : list pkg_row) (staged persisted : list vuln_row)
  : list (pkg_row * option vuln_row) :=
  match pkgs with
  | [] => []
  | _ => merge_left pkgs (candidate_vulns pkgs staged persisted)
  end.

(** [fillna("")] *)
Definition fill (o : option string) : string :=
  match o with Some s => s | None => EmptyString end.

(** The frame after [fillna("")] and [df.drop(["url", "summary", "purl_x",
    "pkgtype"])]: columns appname, deploymentid, packagename, packageversion,
    name, compname, id, purl_y, cve_summary, risklevel. *)
Record frame_row := mk_frame {
  f_appname : string;
  f_deploymentid : Z;
  f_packagename : string;
  f_packageversion : string;
  f_name : string;
  f_compname : string;
  f_id : string;
  f_purl : string;
  f_cve_summary : string;
  f_risklevel : string }.

Definition fill_row (r : pkg_row * option vuln_row) : frame_row :=
  let (p, ov) := r in
  mk_frame (appname p) (deploymentid p) (packagename p) (packageversion p)
    (fill (name p)) (compname p)
    (match ov with Some v => v_id v | None => EmptyString end)
    (match ov with Some v => fill (v_purl v) | None => EmptyString end)
    (match ov with Some v => fill (v_cve_summary v) | None => EmptyString end)
    (match ov with Some v => fill (v_risklevel v) | None => EmptyString end).

(* ------------------------------------------------------------------ *)
(** ** Risk classification and sort (lines 402-409) *)

(** [pd.Categorical(df["risklevel"], ["Critical", "High", "Medium", "Low"])] *)
Inductive risk_cat := Critical | High | Medium | Low.

Definition categories : list risk_cat := [Critical; High; Medium; Low].

Definition cat_name (c : risk_cat) : string :=
  match c with
  | Critical => "Critical" | High => "High" | Medium => "Medium" | Low => "Low"
  end.

(** A value outside the category list becomes NaN ([None]). *)
Definition to_categorical (s : string) : option risk_cat :=
  find (fun c => String.eqb (cat_name c) s) categories.

(** Category codes are the positions in [categories]; [sort_values] puts NaN
    last ([na_position="last"]). *)
Definition cat_sort_rank (o : option risk_cat) : nat :=
  match o with
  | Some Critical => 0 | Some High => 1 | Some Medium => 2 | Some Low => 3
  | None => 4
  end.

(** The sort key: [["risklevel", "packagename", "packageversion"]], extended by
    [["appname", "deploymentid"]] when [envid is not None]. *)
Definition sort_key := (nat * string * string * option (string * Z))%type.

Definition row_key (env : bool) (r : frame_row) : sort_key :=
  (cat_sort_rank (to_categorical (f_risklevel r)), f_packagename r, f_packageversion r,
   if env then Some (f_appname r, f_deploymentid r) else None).

Definition lex (c1 c2 : comparison) : comparison :=
  match c1 with Eq => c2 | c => c end.

Definition opt_cmp {A} (cmp : A -> A -> comparison) (x y : option A) : comparison :=
  match x, y with
  | None, None => Eq
  | None, Some _ => Lt
  | Some _, None => Gt
  | Some a, Some b => cmp a b
  end.

Definition key_cmp (k1 k2 : sort_key) : comparison :=
  let '(r1, n1, v1, e1) := k1 in
  let '(r2, n2, v2, e2) := k2 in
  lex (Nat.compare r1 r2)
   (lex (String.compare n1 n2)
    (lex (String.compare v1 v2)
     (opt_cmp (fun a b => lex (String.compare (fst a) (fst b)) (Z.compare (snd a) (snd b)))
              e1 e2))).

Definition row_leb (env : bool) (a b : frame_row) : bool :=
  match key_cmp (row_key env a) (row_key env b) with Gt => false | _ => true end.

Fixpoint insert_row (env : bool) (x : frame_row) (l : list frame_row) : list frame_row :=
  match l with
  | [] => [x]
  | y :: l' => if row_leb env x y then x :: y :: l' else y :: insert_row env x l'
  end.

(** [df.sort_values(by=[...])], a stable sort on the key. *)
Fixpoint sort_values (env : bool) (l : list frame_row) : list frame_row :=
  match l with
  | [] => []
  | x :: l' => insert_row env x (sort_values env l')
  end.

(** [df["risklevel"].astype(str)] then [.replace("nan", "")]. *)
Definition cat_astype_str (o : option risk_cat) : string :=
  match o with Some c => cat_name c | None => "nan" end.

Definition replace_nan (s : string) : string :=
  if String.eqb s "nan" then EmptyString else s.

Definition recast_risk (r : frame_row) : frame_row :=
  {| f_appname := f_appname r; f_deploymentid := f_deploymentid r;
     f_packagename := f_packagename r; f_packageversion := f_packageversion r;
     f_name := f_name r; f_compname := f_compname r; f_id := f_id r;
     f_purl := f_purl r; f_cve_summary := f_cve_summary r;
     f_risklevel := replace_nan (cat_astype_str (to_categorical (f_risklevel r))) |}.

(** Sorting then recasting the categorical column. *)
Definition classify_and_sort (env : bool) (rows : list frame_row) : list frame_row :=
  map recast_risk (sort_values env rows).

(* ------------------------------------------------------------------ *)
(** ** Display columns and severity tables (lines 411-426) *)

(** After [df.columns = [...]], [reindex] and [drop]: [Application] and
    [Deployment] are kept only when [envid is not None]; [Purl] is dropped. *)
Record display_row := mk_disp {
  d_application : option string;
  d_deployment : option Z;
  d_package : string;
  d_version : string;
  d_license : string;
  d_cve : string;
  d_description : string;
  d_component : string;
  d_risk_level : string }.

Definition to_display (env : bool) (r : frame_row) : display_row :=
  mk_disp (if env then Some (f_appname r) else None)
          (if env then Some (f_deploymentid r) else None)
          (f_packagename r) (f_packageversion r) (f_name r)
          (f_id r) (f_cve_summary r) (f_compname r) (f_risklevel r).

(** [df["CVE"] = df["CVE"].apply(...)] *)
Definition link_cve (d : display_row) : display_row :=
  {| d_application := d_application d; d_deployment := d_deployment d;
     d_package := d_package d; d_version := d_version d; d_license := d_license d;
     d_cve := cve_cell (d_cve d); d_description := d_description d;
     d_component := d_component d; d_risk_level := d_risk_level d |}.

(** A rendered table row: the [Risk Level] column dropped. *)
Record table_row := mk_trow {
  t_application : option string;
  t_deployment : option Z;
  t_package : string;
  t_version : string;
  t_license : string;
  t_cve : string;
  t_description : string;
  t_component : string }.

Definition drop_risk (d : display_row) : table_row :=
  mk_trow (d_application d) (d_deployment d) (d_package d) (d_version d)
          (d_license d) (d_cve d) (d_description d) (d_component d).

(** [df.loc[df["Risk Level"] == lvl]] *)
Definition bucket_rows (lvl : string) (rows : list display_row) : list display_row :=
  filter (fun d => String.eqb (d_risk_level d) lvl) rows.

(** [....drop("Risk Level", axis=1)] *)
Definition bucket (lvl : string) (rows : list display_row) : list table_row :=
  map drop_risk (bucket_rows lvl rows).

(** The levels of [critical_table], [high_table], [medium_table],
    [low_table] and [good_table]. *)
Definition levels : list string := ["Critical"; "High"; "Medium"; "Low"; EmptyString].

Record report_tables := mk_tables {
  critical_table : list table_row;
  high_table : list table_row;
  medium_table : list table_row;
  low_table : list table_row;
  good_table : list table_row }.

Definition display_frame (env : bool) (df : list frame_row) : list display_row :=
  map (fun r => link_cve (to_display env r)) (classify_and_sort env df).

Definition partition_tables (rows : list display_row) : report_tables :=
  mk_tables (bucket "Critical" rows) (bucket "High" rows) (bucket "Medium" rows)
            (bucket "Low" rows) (bucket EmptyString rows).

(** Lines 384-426: merge, fill, sort, render and partition. *)
Definition package_tables (env : bool) (pkgs : list pkg_row) (staged persisted : list vuln_row)
  : report_tables :=
  partition_tables (display_frame env (map fill_row (correlate pkgs staged persisted))).

(* ------------------------------------------------------------------ *)
(** ** Persisted tables *)

(** [str(n)] for an integer key. *)
Fixpoint dec_digits (fuel : nat) (n : N) (acc : string) : string :=
  match fuel with
  | O => acc
  | S f =>
      let acc' := String (ascii_of_N (48 + N.modulo n 10)) acc in
      if N.ltb n 10 then acc' else dec_digits f (N.div n 10) acc'
  end.

Definition py_str_int (z : Z) : string :=
  match z with
  | Zneg p => "-" ++ dec_digits (S (Pos.size_nat p)) (Npos p) EmptyString
  | _ => dec_digits (S (N.size_nat (Z.to_N z))) (Z.to_N z) EmptyString
  end.

(** A row of [dm.dm_applist] (only the columns the ranking reads). *)
Record applist_row := mk_applist {
  al_id : Z;
  al_created : Z;
  al_parentid : option Z;
  al_deploymentid : Z }.

Record deployment_row := mk_deployment {
  dep_deploymentid : Z;
  dep_envid : Z;
  dep_appid : Z }.

Record component_row := mk_component {
  c_id : Z;
  c_name : string;
  c_status : string }.

(** A row of [dm.dm_componentdeps]. *)
Record compdep_row := mk_compdep {
  cd_compid : Z;
  cd_packagename : string;
  cd_packageversion : string;
  cd_name : option string;
  cd_url : option string;
  cd_summary : option string;
  cd_purl : option string;
  cd_pkgtype : option string;
  cd_deptype : string }.

Record database := mk_db {
  dm_applicationcomponent : list (Z * Z);   (* appid, compid *)
  dm_component : list component_row;
  dm_applist : list applist_row;
  dm_deployment : list deployment_row;
  dm_deploymentcomps : list (Z * Z);        (* compid, deploymentid *)
  dm_componentdeps : list compdep_row;
  dm_vulns_persisted : list vuln_row;
  dm_application : list (Z * string);
  dm_environment : list (Z * string) }.

(* ------------------------------------------------------------------ *)
(** ** Environment scope resolution (lines 207-252) *)

Definition same_parent (a b : applist_row) : bool :=
  match al_parentid a, al_parentid b with
  | None, None => true
  | Some x, Some y => Z.eqb x y
  | _, _ => false
  end.

(** [ROW_NUMBER() OVER (PARTITION BY parentid ORDER BY created DESC)]:
    one plus the number of rows of the partition strictly newer, plus the
    number of equally old rows earlier in the scan (ties are numbered in
    scan order). *)
Definition row_number (all before : list applist_row) (r : applist_row) : nat :=
  S (count_occ bool_dec
       (map (fun r' => same_parent r' r && Z.ltb (al_created r) (al_created r')) all) true
     + count_occ bool_dec
       (map (fun r' => same_parent r' r && Z.eqb (al_created r') (al_created r)) before) true).

Fixpoint rank_aux (all before rest : list applist_row) : list (applist_row * nat) :=
  match rest with
  | [] => []
  | r :: rest' => (r, row_number all before r) :: rank_aux all (before ++ [r]) rest'
  end.

(** [ranked_applist] *)
Definition ranked_applist (all : list applist_row) : list (applist_row * nat) :=
  rank_aux all [] all.

(** Rows kept by [WHERE a.rn = 1 AND a.deploymentid > 0]. *)
Definition live_rows (all : list applist_row) : list applist_row :=
  map fst (filter (fun '(a, rn) => Nat.eqb rn 1 && Z.ltb 0 (al_deploymentid a))
                  (ranked_applist all)).

(** The inner [SELECT DISTINCT b.deploymentid ... JOIN dm.dm_deployment b
    ON a.deploymentid = b.deploymentid ... AND b.envid = %s]. *)
Definition env_deployments (db : database) (env : Z) : list Z :=
  nodup Z.eq_dec
    (flat_map (fun a =>
                 map dep_deploymentid
                   (filter (fun b => Z.eqb (dep_deploymentid b) (al_deploymentid a)
                                     && Z.eqb (dep_envid b) env) (dm_deployment db)))
              (live_rows (dm_applist db))).

Definition pair_eq_dec : forall x y : Z * Z, {x = y} + {x <> y}.
Proof. decide equality; apply Z.eq_dec. Defined.

(** [select distinct b.compid, b.deploymentid from dm.dm_deploymentcomps b
     where b.deploymentid in (...)] *)
Definition env_comp_rows (db : database) (env : Z) : list (Z * Z) :=
  let ds := env_deployments db env in
  nodup pair_eq_dec
    (filter (fun '(_, d) => existsb (Z.eqb d) ds) (dm_deploymentcomps db)).

(** [select distinct compid from dm.dm_applicationcomponent a, dm.dm_component b
     where appid = %s and a.compid = b.id and b.status = 'N'] *)
Definition app_comp_rows (db : database) (app : Z) : list Z :=
  nodup Z.eq_dec
    (flat_map (fun '(ap, c) =>
                 if Z.eqb ap app
                 then map (fun _ => c)
                        (filter (fun b => Z.eqb (c_id b) c && String.eqb (c_status b) "N")
                                (dm_component db))
                 else []) (dm_applicationcomponent db)).

(** [complist = list(set(complist))]: the distinct texts, here in first-seen
    order; Python's order depends on the string hash seed. *)
Definition py_set_list (l : list string) : list string := nodup string_dec l.

(* ------------------------------------------------------------------ *)
(** ** Exceptions and the per-attempt state/error monad *)

Inductive exn :=
| InterfaceError (msg : string)      (* sqlalchemy.exc.InterfaceError *)
| OperationalError (msg : string)    (* sqlalchemy.exc.OperationalError *)
| PgOperationalError (msg : string)  (* psycopg2.OperationalError, raised by the raw cursor *)
| DatabaseError (msg : string)       (* any other driver error: syntax, data, constraint *)
| ValueError (msg : string)
| HTTPError (msg : string)           (* requests.exceptions.HTTPError *)
| RequestException (msg : string)    (* other requests.exceptions.RequestException *)
| KeyError (key : string)
| HTTPException (code : Z) (detail : string).

(** [str(err)]; [str(KeyError(k))] quotes the key. *)
Definition exn_str (e : exn) : string :=
  match e with
  | InterfaceError m | OperationalError m | PgOperationalError m | DatabaseError m
  | ValueError m | HTTPError m | RequestException m | HTTPException _ m => m
  | KeyError k => "'" ++ k ++ "'"
  end.

(** A row of the temporary table [dm_sbom]. *)
Record sbom_stage_row := mk_stage {
  s_compid : Z;
  s_packagename : string;
  s_packageversion : string;
  s_name : option string;
  s_url : option string;
  s_summary : option string;
  s_purl : option string;
  s_pkgtype : option string }.

(** Session-private state: the two temporary tables and the printed log. *)
Record session := mk_session {
  dm_sbom : list sbom_stage_row;
  dm_vulns : list vuln_row;
  log : list string }.

Definition M (A : Type) : Type := session -> (exn + A) * session.

Definition ret {A} (a : A) : M A := fun s => (inr a, s).
Definition raise {A} (e : exn) : M A := fun s => (inl e, s).
Definition bind {A B} (m : M A) (k : A -> M B) : M B :=
  fun s => match m s with
           | (inl e, s') => (inl e, s')
           | (inr a, s') => k a s'
           end.
Notation "x <- m ;; k" := (bind m (fun x => k)) (at level 61, m at next level, right associativity).
Notation "m ;;; k" := (bind m (fun _ => k)) (at level 61, right associativity).

(** [try: m except ...]: [handler e = Some h] when an [except] clause matches. *)
Definition try_except {A} (m : M A) (handler : exn -> option (M A)) : M A :=
  fun s => match m s with
           | (inl e, s') => match handler e with Some h => h s' | None => (inl e, s') end
           | ok => ok
           end.

Definition print (msg : string) : M unit :=
  fun s => (inr tt, mk_session (dm_sbom s) (dm_vulns s) (log s ++ [msg])).

Definition from_option {A} (e : exn) (o : option A) : M A :=
  match o with Some a => ret a | None => raise e end.

Fixpoint mapM {A B} (f : A -> M B) (l : list A) : M (list B) :=
  match l with
  | [] => ret []
  | x :: l' => y <- f x ;; ys <- mapM f l' ;; ret (y :: ys)
  end.

(* ------------------------------------------------------------------ *)
(** ** Integer parameters *)

Definition is_some {A} (o : option A) : bool := match o with Some _ => true | None => false end.


Definition char_code (c : ascii) : Z := Z.of_nat (nat_of_ascii c).

Definition in_range (c : ascii) (lo hi : Z) : bool :=
  (lo <=? char_code c)%Z && (char_code c <=? hi)%Z.

(** [isspace] of the C library: blank, tab, newline, vertical tab, form
    feed, carriage return. *)
Definition pg_space (c : ascii) : bool := Z.eqb (char_code c) 32 || in_range c 9 13.

Definition digit_val (c : ascii) : option Z :=
  if in_range c 48 57 then Some (char_code c - 48)%Z else None.

Definition hex_val (c : ascii) : option Z :=
  if in_range c 48 57 then Some (char_code c - 48)%Z
  else if in_range c 97 102 then Some (char_code c - 87)%Z
  else if in_range c 65 70 then Some (char_code c - 55)%Z
  else None.

Definition oct_val (c : ascii) : option Z :=
  if in_range c 48 55 then Some (char_code c - 48)%Z else None.

Definition bin_val (c : ascii) : option Z :=
  if in_range c 48 49 then Some (char_code c - 48)%Z else None.

Fixpoint skip_spaces (s : string) : string :=
  match s with
  | String c s' => if pg_space c then skip_spaces s' else s
  | EmptyString => EmptyString
  end.

(** The digit loop of [pg_strtoint32_safe] for one base: digits, each
    [_] followed by a digit; [us_first] allows an [_] before the first
    digit (after a [0x], [0o] or [0b] prefix). The result is the value,
    the number of digits read and the rest of the text; [None] is a syntax
    error. *)
Fixpoint scan_digits (dv : ascii -> option Z) (base : Z) (us_first : bool)
  (s : string) (acc : Z) (n : nat) : option (Z * nat * string) :=
  match s with
  | EmptyString => Some (acc, n, EmptyString)
  | String c s' =>
      match dv c with
      | Some d => scan_digits dv base us_first s' (base * acc + d)%Z (S n)
      | None =>
          if Ascii.eqb c "_"%char then
            if negb us_first && Nat.eqb n 0 then None
            else match s' with
                 | String c' _ =>
                     if is_some (dv c') then scan_digits dv base us_first s' acc n else None
                 | EmptyString => None
                 end
          else Some (acc, n, s)
      end
  end.

Definition INT4_MIN : Z := (- 2147483648)%Z.
Definition INT4_MAX : Z := 2147483647%Z.

Definition int4_range (z : Z) : bool := (INT4_MIN <=? z)%Z && (z <=? INT4_MAX)%Z.

(** An optional sign. *)
Definition split_sign (s : string) : bool * string :=
  match s with
  | String c r =>
      if Ascii.eqb c "-"%char then (true, r)
      else if Ascii.eqb c "+"%char then (false, r)
      else (false, s)
  | EmptyString => (false, EmptyString)
  end.

(** The digits after the sign, in the base its prefix selects. *)
Definition scan_literal (s : string) : option (Z * nat * string) :=
  match s with
  | String c0 (String x r) =>
      if Ascii.eqb c0 "0"%char then
        if Ascii.eqb x "x"%char || Ascii.eqb x "X"%char then scan_digits hex_val 16 true r 0 0
        else if Ascii.eqb x "o"%char || Ascii.eqb x "O"%char then scan_digits oct_val 8 true r 0 0
        else if Ascii.eqb x "b"%char || Ascii.eqb x "B"%char then scan_digits bin_val 2 true r 0 0
        else scan_digits digit_val 10 false s 0 0
      else scan_digits digit_val 10 false s 0 0
  | _ => scan_digits digit_val 10 false s 0 0
  end.

(** The server's cast of a text parameter to an integer column: [int4in]
    of PostgreSQL 16 ([pg_strtoint32_safe]): leading and trailing
    whitespace, an optional sign, a decimal, [0x], [0o] or [0b] literal
    with single [_] separators, at least one digit, and the range of
    [integer]. *)
Definition pg_int (s : string) : option Z :=
  let '(neg, s2) := split_sign (skip_spaces s) in
  match scan_literal s2 with
  | Some (v, S _, rest) =>
      match skip_spaces rest with
      | EmptyString =>
          let z := if neg then (- v)%Z else v in
          if int4_range z then Some z else None
      | _ => None
      end
  | _ => None
  end.

Definition key_param (s : string) : M Z :=
  from_option (DatabaseError ("invalid input syntax for type integer: " ++ s)) (pg_int s).

(** The statements of one attempt that reach the server.  [engine.connect()]
    and the two [pd.read_sql] calls go through SQLAlchemy; all the others
    (each with its [conn.commit()]) go through the raw psycopg2 cursor of
    [connection.connection]. *)
Inductive db_site :=
| Connect        (* line 163 *)
| CreateTables   (* lines 180-194 *)
| AppScope       (* line 201 *)
| EnvScope       (* line 242 *)
| InsertSbom     (* lines 273-274 *)
| InsertVulns    (* line 300 *)
| ReadPkgs       (* lines 380-382 *)
| ReadVulns      (* line 396 *)
| NameLookup     (* lines 435, 465, 498 *)
| CompSummary.   (* lines 506-568 *)

Definition db_site_eqb (a b : db_site) : bool :=
  match a, b with
  | Connect, Connect | CreateTables, CreateTables | AppScope, AppScope
  | EnvScope, EnvScope | InsertSbom, InsertSbom | InsertVulns, InsertVulns
  | ReadPkgs, ReadPkgs | ReadVulns, ReadVulns | NameLookup, NameLookup
  | CompSummary, CompSummary => true
  | _, _ => false
  end.

Definition via_sqlalchemy (st : db_site) : bool :=
  match st with Connect | ReadPkgs | ReadVulns => true | _ => false end.

(** The error raised when the server connection is gone at [st]: SQLAlchemy
    wraps the driver's error into [sqlalchemy.exc.OperationalError], the raw
    cursor raises [psycopg2.OperationalError] itself. *)
Definition conn_lost (st : db_site) : exn :=
  match st with
  | Connect => OperationalError "could not connect to server"
  | _ => if via_sqlalchemy st
         then OperationalError "server closed the connection unexpectedly"
         else PgOperationalError "server closed the connection unexpectedly"
  end.

(** A round trip to the server; [lost st]: the connection of the attempt is
    gone when [st] is sent. *)
Definition db_call (lost : db_site -> bool) (st : db_site) : M unit :=
  if lost st then raise (conn_lost st) else ret tt.

Definition nul : ascii := ascii_of_nat 0.

(** A statement whose text parameter the server casts to an integer;
    psycopg2 refuses a NUL character before sending anything. *)
Definition key_query (lost : db_site -> bool) (st : db_site) (s : string) : M Z :=
  if no_char nul s then db_call lost st ;;; key_param s
  else raise (ValueError "A string literal cannot contain NUL (0x00) characters.").

(** [str(x)] of an [Optional[str]] parameter. *)
Definition py_str_opt (o : option string) : string :=
  match o with Some s => s | None => "None" end.

(* ------------------------------------------------------------------ *)
(** ** External enrichment fetch (lines 253-305) *)

Inductive jvalue := JStr (s : string) | JInt (z : Z) | JNull.

(** A JSON object from the [data] array. *)
Definition record := list (string * jvalue).

(** The outcome of [requests.get(url, timeout=120)]: either the call raises
    (connection error, timeout: [RequestException]) or a response arrives
    with a status code and a JSON body whose [data] member may be absent. *)
Inductive http_outcome :=
| NetworkFailure (msg : string)
| Response (status_code : Z) (data : option (list record)).

Record config := mk_config { deppkg_url : string }.

(** [row[k]] *)
Definition getitem (r : record) (k : string) : M jvalue :=
  match find (fun kv => String.eqb (fst kv) k) r with
  | Some (_, v) => ret v
  | None => raise (KeyError k)
  end.

(** Column casts done by the INSERT. *)
Definition col_text (v : jvalue) : option string :=
  match v with JStr s => Some s | JInt z => Some (py_str_int z) | JNull => None end.

Definition col_text_notnull (v : jvalue) : M string :=
  from_option (DatabaseError "null value violates not-null constraint") (col_text v).

Definition col_int_notnull (v : jvalue) : M Z :=
  match v with
  | JInt z => if int4_range z then ret z else raise (DatabaseError "integer out of range")
  | JStr s => key_param s
  | JNull => raise (DatabaseError "null value violates not-null constraint")
  end.

(** [requests.get] followed by [response.raise_for_status()] and
    [data.get("data", None)]. *)
Definition http_get (http : string -> http_outcome) (u : string) : M (option (list record)) :=
  match http u with
  | NetworkFailure msg => raise (RequestException msg)
  | Response code data =>
      if (400 <=? code)%Z && (code <? 600)%Z
      then raise (HTTPError (py_str_int code ++ " Error for url: " ++ u))
      else ret data
  end.

(** [(row["key"], row["packagename"], row["packageversion"], row["name"],
      row["url"], row["summary"], "", row["pkgtype"])] *)
Definition license_tuple (r : record) : M (list jvalue) :=
  k <- getitem r "key" ;; pn <- getitem r "packagename" ;;
  pv <- getitem r "packageversion" ;; nm <- getitem r "name" ;;
  u <- getitem r "url" ;; sm <- getitem r "summary" ;; pt <- getitem r "pkgtype" ;;
  ret [k; pn; pv; nm; u; sm; JStr EmptyString; pt].

(** [(row["packagename"], row["packageversion"], row["name"], row["url"],
      row["summary"], row["risklevel"])] *)
Definition vuln_tuple (r : record) : M (list jvalue) :=
  pn <- getitem r "packagename" ;; pv <- getitem r "packageversion" ;;
  nm <- getitem r "name" ;; u <- getitem r "url" ;;
  sm <- getitem r "summary" ;; rl <- getitem r "risklevel" ;;
  ret [pn; pv; nm; u; sm; rl].

Definition stage_row_of (t : list jvalue) : M sbom_stage_row :=
  match t with
  | [k; pn; pv; nm; u; sm; pu; pt] =>
      c <- col_int_notnull k ;; pn' <- col_text_notnull pn ;; pv' <- col_text_notnull pv ;;
      ret (mk_stage c pn' pv' (col_text nm) (col_text u) (col_text sm) (col_text pu) (col_text pt))
  | _ => raise (DatabaseError "INSERT has more expressions than target columns")
  end.

Definition vuln_row_of (t : list jvalue) : M vuln_row :=
  match t with
  | [pn; pv; nm; u; sm; rl] =>
      pn' <- col_text_notnull pn ;; pv' <- col_text_notnull pv ;; id' <- col_text_notnull nm ;;
      ret (mk_vuln id' pn' pv' (col_text u) (col_text sm) (col_text rl))
  | _ => raise (DatabaseError "INSERT has more expressions than target columns")
  end.

(** [execute_values(cursor, "INSERT INTO dm_sbom ...", values_list)] and
    [conn.commit()]: all rows or none.  [execute_values] sends nothing for
    an empty list; [conn.commit()] then reaches the server only inside an
    open transaction ([in_txn]). *)
Definition insert_dm_sbom (lost : db_site -> bool) (in_txn : bool)
  (values_list : list (list jvalue)) : M unit :=
  match values_list with
  | [] => if in_txn then db_call lost InsertSbom else ret tt
  | _ =>
      db_call lost InsertSbom ;;;
      rows <- mapM stage_row_of values_list ;;
      fun s => (inr tt, mk_session (dm_sbom s ++ rows) (dm_vulns s) (log s))
  end.

(** [execute_values(cursor, "INSERT INTO dm_vulns ...", vulns_list)], with
    no commit. *)
Definition insert_dm_vulns (lost : db_site -> bool) (vulns_list : list (list jvalue)) : M unit :=
  match vulns_list with
  | [] => ret tt
  | _ =>
      db_call lost InsertVulns ;;;
      rows <- mapM vuln_row_of vulns_list ;;
      fun s => (inr tt, mk_session (dm_sbom s) (dm_vulns s ++ rows) (log s))
  end.

(** [except requests.exceptions.HTTPError] / [except RequestException]. *)
Definition requests_handler (e : exn) : option (M unit) :=
  match e with
  | HTTPError m => Some (print ("HTTP error occurred: " ++ m))
  | RequestException m => Some (print ("An error occurred: " ++ m))
  | _ => None
  end.

Fixpoint join_comma (l : list string) : string :=
  match l with
  | [] => EmptyString
  | [x] => x
  | x :: l' => x ++ "," ++ join_comma l'
  end.

Definition license_url (cfg : config) (i : ids) (complist : list string) : string :=
  match compid i with
  | Some c => deppkg_url cfg ++ "?deptype=license&compid=" ++ c
  | None => deppkg_url cfg ++ "?deptype=license&appid=" ++ join_comma complist
  end.

Definition vuln_url (cfg : config) (i : ids) (complist : list string) : string :=
  match compid i with
  | Some c => deppkg_url cfg ++ "?compid=" ++ c
  | None => deppkg_url cfg ++ "?appid=" ++ join_comma complist
  end.

(** A transaction is open at the [conn.commit()] of line 274 when a scope
    query ran after the commit of line 194, that is when [appid] or
    [envid] is given. *)
Definition fetch_licenses (cfg : config) (http : string -> http_outcome) (lost : db_site -> bool)
  (i : ids) (complist : list string) : M unit :=
  try_except
    (rows <- http_get http (license_url cfg i complist) ;;
     match rows with
     | Some rs =>
         values_list <- mapM license_tuple rs ;;
         insert_dm_sbom lost (is_some (appid i) || is_some (envid i)) values_list ;;;
         print "SBOM"
     | None => ret tt
     end)
    requests_handler.

Definition fetch_vulns (cfg : config) (http : string -> http_outcome) (lost : db_site -> bool)
  (i : ids) (complist : list string) : M unit :=
  try_except
    (rows <- http_get http (vuln_url cfg i complist) ;;
     match rows with
     | Some rs => vulns_list <- mapM vuln_tuple rs ;; insert_dm_vulns lost vulns_list ;;; print "CVE"
     | None => ret tt
     end)
    requests_handler.

(** [if len(deppkg_url) > 0 and (compid is not None or ...): ...] *)
Definition enrich (cfg : config) (http : string -> http_outcome) (lost : db_site -> bool)
  (i : ids) (complist : list string) : M unit :=
  if Nat.ltb 0 (length (deppkg_url cfg)) && (is_some (compid i) || is_some (appid i) || is_some (envid i))
  then fetch_licenses cfg http lost i complist ;;; fetch_vulns cfg http lost i complist
  else ret tt.

(* ------------------------------------------------------------------ *)
(** ** SBOM query builder (lines 307-382) *)

Inductive sbom_stmt := SbomComp | SbomApp | SbomEnv | SbomEmpty.

(** [sqlstmt] and [objid] as chosen by the [if/elif] chain; [SbomEmpty] is
    the initial [sqlstmt = ""]. *)
Definition select_stmt (i : ids) : sbom_stmt * option string :=
  match compid i, appid i, envid i with
  | Some c, _, _ => (SbomComp, Some c)
  | None, Some a, _ => (SbomApp, Some a)
  | None, None, Some e => (SbomEnv, Some e)
  | None, None, None => (SbomEmpty, compid i)
  end.

Definition components_with_id (db : database) (k : Z) : list component_row :=
  filter (fun c => Z.eqb (c_id c) k) (dm_component db).

Definition staged_pkg (app : string) (dep : Z) (b : sbom_stage_row) (c : component_row) : pkg_row :=
  mk_pkg app dep (s_packagename b) (s_packageversion b) (s_name b) (s_url b) (s_summary b)
         (c_name c) (s_purl b) (s_pkgtype b).

Definition persisted_pkg (app : string) (dep : Z) (b : compdep_row) (c : component_row) : pkg_row :=
  mk_pkg app dep (cd_packagename b) (cd_packageversion b) (cd_name b) (cd_url b) (cd_summary b)
         (c_name c) (cd_purl b) (cd_pkgtype b).

Definition pkg_union (a b : list pkg_row) : list pkg_row := nodup pkg_row_eq_dec (a ++ b).

(** The component-kind statement. *)
Definition sbom_comp_rows (db : database) (stage : list sbom_stage_row) (k : Z) : list pkg_row :=
  pkg_union
    (flat_map (fun b => if Z.eqb (s_compid b) k
                        then map (staged_pkg EmptyString 0 b) (components_with_id db (s_compid b))
                        else []) stage)
    (flat_map (fun b => if Z.eqb (cd_compid b) k && String.eqb (cd_deptype b) "license"
                        then map (persisted_pkg EmptyString 0 b) (components_with_id db (cd_compid b))
                        else []) (dm_componentdeps db)).

(** The application-kind statement. *)
Definition sbom_app_rows (db : database) (stage : list sbom_stage_row) (k : Z) : list pkg_row :=
  let comps := map snd (filter (fun '(ap, _) => Z.eqb ap k) (dm_applicationcomponent db)) in
  pkg_union
    (flat_map (fun ac => flat_map (fun b => if Z.eqb ac (s_compid b)
                        then map (staged_pkg EmptyString 0 b) (components_with_id db (s_compid b))
                        else []) stage) comps)
    (flat_map (fun ac => flat_map (fun b =>
                        if Z.eqb ac (cd_compid b) && String.eqb (cd_deptype b) "license"
                        then map (persisted_pkg EmptyString 0 b) (components_with_id db (cd_compid b))
                        else []) (dm_componentdeps db)) comps).

(** The environment-kind statement, over [b.deploymentid in :deploy]. *)
Definition sbom_env_rows (db : database) (stage : list sbom_stage_row) (deploy : list Z) : list pkg_row :=
  let triples :=
    flat_map (fun a => flat_map (fun b =>
      if Z.eqb (fst a) (dep_appid b) && existsb (Z.eqb (dep_deploymentid b)) deploy
      then flat_map (fun '(ap, cid) => if Z.eqb ap (fst a)
                                       then map (fun e => (snd a, dep_deploymentid b, e))
                                                (components_with_id db cid)
                                       else []) (dm_applicationcomponent db)
      else []) (dm_deployment db)) (dm_application db) in
  pkg_union
    (flat_map (fun '(an, dep, e) =>
       map (fun d => persisted_pkg an dep d e)
           (filter (fun d => Z.eqb (cd_compid d) (c_id e)) (dm_componentdeps db))) triples)
    (flat_map (fun '(an, dep, e) =>
       map (fun d => staged_pkg an dep d e)
           (filter (fun d => Z.eqb (s_compid d) (c_id e)) stage)) triples).

Definition get_stage : M (list sbom_stage_row) := fun s => (inr (dm_sbom s), s).
Definition get_staged_vulns : M (list vuln_row) := fun s => (inr (dm_vulns s), s).

(** The bind parameters: [{"deploy": tuple(deploylist)}] when [envid is not
    None], [{"objid": objid}] otherwise. *)
Inductive sql_params := PDeploy (deploy : list Z) | PObjid (objid : option string).

Definition missing_param (p : string) : exn :=
  DatabaseError ("A value is required for bind parameter '" ++ p ++ "'").

(** [pd.read_sql(sql.text(sqlstmt), connection, params=...)]. A missing
    bind parameter is refused by SQLAlchemy before anything is sent; the
    server answers an empty statement with no result ("can't execute an
    empty query") and an empty [IN ()] tuple with a syntax error; a NULL
    [objid] matches no row. *)
Definition read_sql_pkgs (db : database) (lost : db_site -> bool) (st : sbom_stmt)
  (ps : sql_params) : M (list pkg_row) :=
  stage <- get_stage ;;
  match st, ps with
  | SbomEmpty, _ => db_call lost ReadPkgs ;;; raise (DatabaseError "can't execute an empty query")
  | SbomEnv, PDeploy [] => db_call lost ReadPkgs ;;; raise (DatabaseError "syntax error at or near )")
  | SbomEnv, PDeploy deploy => db_call lost ReadPkgs ;;; ret (sbom_env_rows db stage deploy)
  | SbomEnv, PObjid _ => raise (missing_param "deploy")
  | SbomComp, PObjid (Some o) => k <- key_query lost ReadPkgs o ;; ret (sbom_comp_rows db stage k)
  | SbomApp, PObjid (Some o) => k <- key_query lost ReadPkgs o ;; ret (sbom_app_rows db stage k)
  | _, PObjid None => db_call lost ReadPkgs ;;; ret []
  | _, PDeploy _ => raise (missing_param "objid")
  end.

(* ------------------------------------------------------------------ *)
(** ** One attempt of the pipeline (lines 163-569) *)

Definition last_name (label : string) (names : list string) : string :=
  fold_left (fun _ n => label ++ n) names EmptyString.

(** [select name from dm.dm_component / dm_application / dm_environment
     where id = %s]: [objname] is set by the last row, if any. *)
Definition lookup_objname (db : database) (lost : db_site -> bool) (i : ids) : M string :=
  match compid i, appid i with
  | Some c, _ =>
      k <- key_query lost NameLookup c ;;
      ret (last_name "Component<br>" (map c_name (components_with_id db k)))
  | None, Some a =>
      k <- key_query lost NameLookup a ;;
      ret (last_name "Application<br>"
             (map snd (filter (fun r => Z.eqb (fst r) k) (dm_application db))))
  | None, None =>
      k <- key_query lost NameLookup (py_str_opt (envid i)) ;;
      ret (last_name "Environment<br>"
             (map snd (filter (fun r => Z.eqb (fst r) k) (dm_environment db))))
  end.

(** The ownership/provenance section: one entry per component in scope
    (its name; the provenance columns are not modelled).  No query is run in
    the environment case ([sqlstmt = ""]). *)
Definition component_summaries (db : database) (lost : db_site -> bool) (i : ids)
  : M (list string) :=
  match compid i, appid i with
  | Some c, _ => k <- key_query lost CompSummary c ;; ret (map c_name (components_with_id db k))
  | None, Some a =>
      k <- key_query lost CompSummary a ;;
      ret (map c_name
             (filter (fun c => String.eqb (c_status c) "N"
                               && existsb (fun '(ap, cid) => Z.eqb ap k && Z.eqb cid (c_id c))
                                          (dm_applicationcomponent db))
                     (dm_component db)))
  | None, None => ret []
  end.

Record report := mk_report {
  objname : string;
  comptable : list string;
  tables : option report_tables }.   (* [None]: the tables stay [""] *)

(** Lines 207-252: [complist] and [deploylist]. *)
Definition resolve_scope (db : database) (lost : db_site -> bool) (i : ids)
  : M (list string * list Z) :=
  complist1 <- match appid i with
               | Some a => k <- key_query lost AppScope a ;; ret (map py_str_int (app_comp_rows db k))
               | None => ret []
               end ;;
  rows2 <- match envid i with
           | Some e => k <- key_query lost EnvScope e ;; ret (env_comp_rows db k)
           | None => ret []
           end ;;
  ret (py_set_list (complist1 ++ map (fun r => py_str_int (fst r)) rows2), map snd rows2).

(** Lines 307-568: package query, correlation and tables, object name and
    component summaries. *)
Definition report_stage (db : database) (lost : db_site -> bool) (i : ids) (deploylist : list Z)
  : M report :=
  let '(st, objid) := select_stmt i in
  let ps := if is_some (envid i) then PDeploy (nodup Z.eq_dec deploylist) else PObjid objid in
  pkgs <- read_sql_pkgs db lost st ps ;;
  tabs <- match pkgs with
          | [] => ret None
          | _ => db_call lost ReadVulns ;;;
                 staged <- get_staged_vulns ;;
                 ret (Some (package_tables (is_some (envid i)) pkgs staged
                                           (dm_vulns_persisted db)))
          end ;;
  nm <- lookup_objname db lost i ;;
  comps <- component_summaries db lost i ;;
  ret (mk_report nm comps tabs).

Definition attempt_body (cfg : config) (db : database) (http : string -> http_outcome)
  (lost : db_site -> bool) (i : ids) : M report :=
  db_call lost CreateTables ;;;
  sc <- resolve_scope db lost i ;;
  enrich cfg http lost i (fst sc) ;;;
  report_stage db lost i (snd sc).

(* ------------------------------------------------------------------ *)
(** ** Retry loop and the endpoint (lines 148-162, 571-580, 1297-1301) *)

Definition DB_CONN_RETRY : nat := 3.

(** [sleep_for = 0.2] *)
Definition retry_sleep_ms : nat := 200.

Definition is_transient (e : exn) : bool :=
  match e with InterfaceError _ | OperationalError _ => true | _ => false end.

(** [while True: try: ... break except (InterfaceError, OperationalError):
     if attempt < no_of_retry: sleep; attempt += 1; continue else: raise].
    [run k] is the outcome of attempt number [k]; the result carries the
    sleeps taken. [fuel] bounds the loop (the exit test bounds it by
    [no_of_retry]). *)
Fixpoint retry_loop {A} (fuel attempt no_of_retry : nat) (run : nat -> exn + A)
  : (exn + A) * list nat :=
  match run attempt with
  | inr a => (inr a, [])
  | inl e =>
      if is_transient e then
        if Nat.ltb attempt no_of_retry then
          match fuel with
          | S f => let '(r, sl) := retry_loop f (S attempt) no_of_retry run in
                   (r, retry_sleep_ms :: sl)
          | O => (inl e, [])
          end
        else (inl e, [])
      else (inl e, [])
  end.

Inductive response := HTMLResponse (r : report) | ErrorResponse (status : Z) (detail : string).

(** [except HTTPException: raise / except Exception as err:
     raise HTTPException(500, str(err))] *)
Definition to_response (r : exn + report) : response :=
  match r with
  | inr rep => HTMLResponse rep
  | inl (HTTPException c d) => ErrorResponse c d
  | inl e => ErrorResponse 500 (exn_str e)
  end.

(** One attempt: [engine.connect()], then the body on the session's
    temporary tables; [lost k st]: at attempt [k] the server connection is
    gone when statement [st] is sent. *)
Definition run_attempt (cfg : config) (db : database) (lost : nat -> db_site -> bool)
  (http : string -> http_outcome) (sess : session) (i : ids) (k : nat) : exn + report :=
  if lost k Connect then inl (conn_lost Connect)
  else fst (attempt_body cfg db http (lost k) i sess).

Definition export_sbom_trace (no_of_retry : nat) (cfg : config) (db : database)
  (lost : nat -> db_site -> bool) (http : string -> http_outcome) (sess : session) (raw : ids)
  : response * list nat :=
  let i := normalize_ids raw in
  let '(r, sleeps) := retry_loop no_of_retry 1 no_of_retry (run_attempt cfg db lost http sess i) in
  (to_response r, sleeps).

Definition export_sbom (cfg : config) (db : database) (lost : nat -> db_site -> bool)
  (http : string -> http_outcome) (sess : session) (raw : ids) : response :=
  fst (export_sbom_trace DB_CONN_RETRY cfg db lost http sess raw).

(* ------------------------------------------------------------------ *)
(** ** Sample inputs *)

Definition frame_ex (risk pkg : string) : frame_row :=
  mk_frame "app" 1 pkg "1.0" "MIT" "comp" "CVE-1" EmptyString EmptyString risk.

Definition pkg_ex : pkg_row :=
  mk_pkg EmptyString 0 "left-pad" "1.0.0" (Some "MIT") None None "comp" None (Some "npm").

Definition vuln_ex (id risk : string) : vuln_row :=
  mk_vuln id "left-pad" "1.0.0" None (Some "summary") (Some risk).

(** Scenario A of the spec: component "co42", nothing persisted, the
    dependency service returning "left-pad" 1.0.0 (MIT) and one High finding. *)
Definition db_a : database :=
  mk_db [] [mk_component 42 "comp" "N"] [] [] [] [] [] [] [].

Definition cfg_a : config := mk_config "http://deppkg/msapi/package".

Definition http_a (u : string) : http_outcome :=
  if prefix "http://deppkg/msapi/package?deptype=license" u then
    Response 200 (Some [[("key", JInt 42); ("packagename", JStr "left-pad");
                         ("packageversion", JStr "1.0.0"); ("name", JStr "MIT");
                         ("url", JNull); ("summary", JNull); ("pkgtype", JStr "npm")]])
  else
    Response 200 (Some [[("packagename", JStr "left-pad"); ("packageversion", JStr "1.0.0");
                         ("name", JStr "GHSA-0001"); ("url", JNull);
                         ("summary", JStr "prototype pollution"); ("risklevel", JStr "High")]]).

Definition http_down (u : string) : http_outcome := NetworkFailure "Connection refused".

Definition sess0 : session := mk_session [] [] [].

(** A connection that stays up. *)
Definition no_lost : db_site -> bool := fun _ => false.

Definition ids_a : ids := mk_ids (Some "co42") None None.

(** An environment 7 with two lineages: lineage 1 deployed twice (the
    newer deployment, 11, is the live one), lineage 2 once; deployments 11
    and 20 share component 5. *)
Definition db_env : database :=
  mk_db [] [] [mk_applist 1 100 (Some 1%Z) 10; mk_applist 2 200 (Some 1%Z) 11;
              mk_applist 3 150 (Some 2%Z) 20]
        [mk_deployment 10 7 1; mk_deployment 11 7 1; mk_deployment 20 7 2]
        [(5, 10); (5, 11); (6, 11); (5, 20)]%Z [] [] [] [].

(** Application 9 with components 1 (twice), 2 (retired) and 3. *)
Definition db_app : database :=
  mk_db [(9, 1); (9, 1); (9, 2); (9, 3); (8, 4)]%Z
        [mk_component 1 "a" "N"; mk_component 2 "b" "Y"; mk_component 3 "c" "N";
         mk_component 4 "d" "N"] [] [] [] [] [] [] [].

(** A dependency service answering every request with a record that has no
    [packageversion] field. *)
Definition http_bad (u : string) : http_outcome :=
  Response 200 (Some [[("key", JInt 42); ("packagename", JStr "left-pad")]]).

(* ------------------------------------------------------------------ *)
(** ** Auxiliary notions of the proofs *)

Definition same_tables (s1 s2 : session) : Prop :=
  dm_sbom s1 = dm_sbom s2 /\ dm_vulns s1 = dm_vulns s2.

Definition reads_tables {A} (m : M A) : Prop :=
  forall s1 s2, same_tables s1 s2 ->
    fst (m s1) = fst (m s2) /\ same_tables (snd (m s1)) (snd (m s2)).

(** An outcome of the deppkg service that yields no rows to stage: a network
    failure, an error status, or a body without a [data] field. *)
Definition enrich_fails (http : string -> http_outcome) (u : string) : bool :=
  match http u with
  | NetworkFailure _ => true
  | Response code data => ((400 <=? code)%Z && (code <? 600)%Z) || negb (is_some data)
  end.

Definition no_ids : ids := mk_ids None None None.

Definition not_both_first (x y : applist_row * nat) : Prop :=
  snd x = 1 -> snd y = 1 -> same_parent (fst x) (fst y) = false.

Definition pure_m {A} (m : M A) : Prop := forall s, snd (m s) = s.

Definition raises_only {A} (Q : exn -> Prop) (m : M A) : Prop :=
  forall s e, fst (m s) = inl e -> Q e.

Definition ensures {A} (m : M A) (P : A -> Prop) : Prop :=
  forall s a s', m s = (inr a, s') -> P a.

(** The fields the license comprehension reads (line 271). *)
Definition license_fields : list string :=
  ["key"; "packagename"; "packageversion"; "name"; "url"; "summary"; "pkgtype"].

(** An error that is neither a connection error (the retried kind) nor an
    [HTTPException] (answered with its own status). *)
Definition plain_error (e : exn) : Prop :=
  match e with
  | InterfaceError _ | OperationalError _ | HTTPException _ _ => False
  | _ => True
  end.

Fixpoint all_chars (p : ascii -> bool) (s : string) : bool :=
  match s with
  | EmptyString => true
  | String c s' => p c && all_chars p s'
  end.

(** The characters an integer literal accepted by [int4in] can contain. *)
Definition pg_char (c : ascii) : bool :=
  pg_space c || is_some (hex_val c)
  || existsb (Ascii.eqb c) ["+"; "-"; "_"; "x"; "X"; "o"; "O"]%char.

Definition not_http (e : exn) : Prop :=
  match e with HTTPException _ _ => False | _ => True end.

Definition fails {A} (m : M A) : Prop := forall s, exists e, fst (m s) = inl e.

(** Attempt [j] of [no_of_retry = n] ends the retry loop: it is the last
    one, it succeeds, or it fails with an error that is not retried. *)
Definition stops_retry {A} (n j : nat) (r : exn + A) : Prop :=
  j = n \/ match r with inr _ => True | inl e => is_transient e = false end.

(* ================================================================== *)
(** * Properties *)

(** ** Identifier normalisation *)

Lemma substring_full : forall s, substring 0 (length s) s = s.
Proof. induction s as [|c s IH]; simpl; [reflexivity | now rewrite IH]. Qed.

Lemma prefix_nil : forall s, prefix EmptyString s = true.
Proof. now destruct s. Qed.

Lemma slice_two : forall (c1 c2 : ascii) rest,
  py_slice_from 2 (String c1 (String c2 rest)) = rest.
Proof.
  intros c1 c2 rest. unfold py_slice_from. simpl.
  rewrite Nat.sub_0_r. apply substring_full.
Qed.

(** Claim C7: each recognised two-letter kind prefix ("cv"/"co" for a
    component, "av"/"ap" for an application, "en" for an environment) is
    removed and nothing else; an identifier without a recognised prefix is
    unchanged; an absent identifier stays absent. *)
Theorem normalize_ids_spec :
  (forall rest : string,
      normalize_compid (Some ("cv" ++ rest)) = Some rest /\
      normalize_compid (Some ("co" ++ rest)) = Some rest /\
      normalize_appid (Some ("av" ++ rest)) = Some rest /\
      normalize_appid (Some ("ap" ++ rest)) = Some rest /\
      normalize_envid (Some ("en" ++ rest)) = Some rest) /\
  (forall s, py_startswith s "cv" = false -> py_startswith s "co" = false ->
             normalize_compid (Some s) = Some s) /\
  (forall s, py_startswith s "av" = false -> py_startswith s "ap" = false ->
             normalize_appid (Some s) = Some s) /\
  (forall s, py_startswith s "en" = false -> normalize_envid (Some s) = Some s) /\
  normalize_compid None = None /\ normalize_appid None = None /\ normalize_envid None = None /\
  (forall c a e, normalize_ids (mk_ids c a e) =
                 mk_ids (normalize_compid c) (normalize_appid a) (normalize_envid e)).
Proof.
  split; [|split; [|split; [|split]]].
  - intros rest; unfold normalize_compid, normalize_appid, normalize_envid, py_startswith;
      simpl; rewrite prefix_nil; simpl; repeat split; apply (f_equal Some); apply slice_two.
  - intros s H1 H2; simpl; now rewrite H1, H2.
  - intros s H1 H2; simpl; now rewrite H1, H2.
  - intros s H1; simpl; now rewrite H1.
  - repeat split.
Qed.

Lemma normalize_ids_spec_witness :
  py_startswith "42" "cv" = false /\ py_startswith "42" "co" = false /\
  normalize_compid (Some "42") = Some "42".
Proof.
  split; [reflexivity | split; [reflexivity |]].
  destruct normalize_ids_spec as [_ [Hc _]].
  apply Hc; reflexivity.
Defined.

(** ** CVE links *)

Lemma py_split_no_char : forall sep s, no_char sep s = true -> py_split sep s = [s].
Proof.
  intros sep s; induction s as [|c s IH]; simpl; [reflexivity|].
  intros H; apply andb_prop in H as [Hc Hs].
  destruct (Ascii.eqb c sep); [discriminate|].
  now rewrite IH.
Qed.

Lemma py_split_sep : forall sep a b, exists pre, pre <> [] /\
  py_split sep (a ++ String sep b) = (pre ++ py_split sep b)%list.
Proof.
  intros sep a b; induction a as [|c a IH]; simpl.
  - rewrite Ascii.eqb_refl. exists [EmptyString]. split; [discriminate | reflexivity].
  - destruct IH as [pre [Hne Heq]]. rewrite Heq.
    destruct (Ascii.eqb c sep).
    + exists (EmptyString :: pre); split; [discriminate | reflexivity].
    + destruct pre as [|w ws]; [contradiction|].
      exists (String c w :: ws); split; [discriminate | reflexivity].
Qed.

Lemma py_split_not_nil : forall sep s, py_split sep s <> [].
Proof.
  intros sep s; induction s as [|c s IH]; simpl; [discriminate|].
  destruct (Ascii.eqb c sep); [discriminate|].
  destruct (py_split sep s); [contradiction | discriminate].
Qed.

Lemma last_app_ne : forall (pre l : list string) d, l <> [] -> last (pre ++ l)%list d = last l d.
Proof.
  intros pre l d Hl; induction pre as [|x pre IH]; simpl; [reflexivity|].
  destruct (pre ++ l)%list eqn:E.
  - apply app_eq_nil in E as [_ E]; contradiction.
  - exact IH.
Qed.

Lemma split_last_sep : forall sep a b,
  py_last (py_split sep (a ++ String sep b)) = py_last (py_split sep b).
Proof.
  intros sep a b. destruct (py_split_sep sep a b) as [pre [_ ->]].
  unfold py_last. apply last_app_ne, py_split_not_nil.
Qed.

Lemma string_app_assoc : forall a b c : string, (a ++ b) ++ c = a ++ (b ++ c).
Proof. induction a as [|x a IH]; intros; simpl; [reflexivity | now rewrite IH]. Qed.

Lemma last_char_split : forall sep s,
  no_char sep s = true \/ exists a b, s = a ++ String sep b /\ no_char sep b = true.
Proof.
  intros sep s; induction s as [|c s IH]; simpl; [now left|].
  destruct IH as [Hn | [a [b [-> Hb]]]].
  - destruct (Ascii.eqb c sep) eqn:E; simpl.
    + right. exists EmptyString, s. apply Ascii.eqb_eq in E; subst. split; [reflexivity | exact Hn].
    + now left.
  - right. exists (String c a), b. split; [reflexivity | exact Hb].
Qed.

(** Claim C9: an empty identifier stays empty; a non-empty one becomes an
    anchor whose href is "https://osv.dev/vulnerability/" followed by the
    identifier and whose label is the trailing path segment of that URL
    (the identifier itself when it contains no slash). *)
Theorem cve_cell_spec : forall x,
  (x = EmptyString -> cve_cell x = EmptyString) /\
  (x <> EmptyString ->
   exists pre label,
     cve_cell x = "<a href=" ++ dq ++ osv_prefix ++ x ++ dq ++ ">" ++ label ++ "</a>" /\
     osv_prefix ++ x = pre ++ String slash label /\
     no_char slash label = true /\
     (no_char slash x = true -> label = x)).
Proof.
  intros x; split.
  - intros ->; reflexivity.
  - intros Hne.
    unfold cve_cell.
    replace (Nat.ltb 0 (length x)) with true
      by (destruct x; [contradiction | reflexivity]).
    unfold make_clickable.
    destruct (last_char_split slash x) as [Hn | [a [b [-> Hb]]]].
    + exists "https://osv.dev/vulnerability", x.
      assert (E : osv_prefix ++ x = "https://osv.dev/vulnerability" ++ String slash x)
        by reflexivity.
      rewrite E, split_last_sep, py_split_no_char by exact Hn.
      repeat split; auto.
    + exists ("https://osv.dev/vulnerability/" ++ a), b.
      assert (E : osv_prefix ++ (a ++ String slash b)
                  = ("https://osv.dev/vulnerability/" ++ a) ++ String slash b)
        by (rewrite string_app_assoc; reflexivity).
      rewrite E, split_last_sep, py_split_no_char by exact Hb.
      split; [repeat rewrite string_app_assoc; reflexivity|].
      split; [reflexivity|]. split; [exact Hb|].
      intros Hx. exfalso.
      clear -Hx. induction a as [|c a IH]; simpl in Hx.
      * rewrite ?Ascii.eqb_refl in Hx; discriminate.
      * apply andb_prop in Hx as [_ Hx]; auto.
Qed.

Lemma cve_cell_spec_witness :
  "GHSA-xxxx" <> EmptyString /\
  cve_cell "GHSA-xxxx" =
    "<a href=" ++ dq ++ osv_prefix ++ "GHSA-xxxx" ++ dq ++ ">" ++ "GHSA-xxxx" ++ "</a>".
Proof.
  split; [discriminate|].
  destruct (cve_cell_spec "GHSA-xxxx") as [_ H].
  destruct (H ltac:(discriminate)) as [pre [label [Hc [_ [_ Hl]]]]].
  rewrite Hc, (Hl eq_refl). reflexivity.
Defined.

(** ** The sort key is a total order *)

Definition lawful {A} (cmp : A -> A -> comparison) : Prop :=
  (forall x y, cmp x y = Eq -> x = y) /\
  (forall x y, cmp x y = CompOpp (cmp y x)) /\
  (forall x y z, cmp x y = Lt -> cmp y z = Lt -> cmp x z = Lt).

Definition lex_cmp {A B} (ca : A -> A -> comparison) (cb : B -> B -> comparison)
  (x y : A * B) : comparison :=
  lex (ca (fst x) (fst y)) (cb (snd x) (snd y)).

Section LawfulOrders.
Context {A B : Type} (ca : A -> A -> comparison) (cb : B -> B -> comparison).
Hypothesis Ha : lawful ca.
Hypothesis Hb : lawful cb.

Lemma lawful_refl {C} (c : C -> C -> comparison) : lawful c -> forall x, c x x = Eq.
Proof.
  intros [_ [Hanti _]] x. specialize (Hanti x x).
  destruct (c x x); simpl in Hanti; congruence.
Qed.

Lemma lex_cmp_lawful : lawful (lex_cmp ca cb).
Proof.
  destruct Ha as [Ea [Aa Ta]]; destruct Hb as [Eb [Ab Tb]].
  unfold lex_cmp, lex; split; [|split].
  - intros [x1 x2] [y1 y2]; simpl.
    destruct (ca x1 y1) eqn:E; try discriminate.
    intros E2. apply Ea in E; apply Eb in E2; now subst.
  - intros [x1 x2] [y1 y2]; simpl.
    rewrite (Aa x1 y1), (Ab x2 y2).
    destruct (ca y1 x1); reflexivity.
  - intros [x1 x2] [y1 y2] [z1 z2]; simpl.
    destruct (ca x1 y1) eqn:E1; try discriminate;
    destruct (ca y1 z1) eqn:E2; try discriminate; intros H1 H2.
    + apply Ea in E1; apply Ea in E2; subst.
      rewrite (lawful_refl ca Ha). now apply (Tb _ y2).
    + apply Ea in E1; subst. now rewrite E2.
    + apply Ea in E2; subst. now rewrite E1.
    + now rewrite (Ta _ _ _ E1 E2).
Qed.

Lemma opt_cmp_lawful : lawful (opt_cmp ca).
Proof.
  destruct Ha as [Ea [Aa Ta]].
  split; [|split].
  - intros [x|] [y|]; simpl; try discriminate; [intros E; f_equal; auto | reflexivity].
  - intros [x|] [y|]; simpl; auto.
  - intros [x|] [y|] [z|]; simpl; try discriminate; eauto.
Qed.
End LawfulOrders.

Lemma nat_compare_lawful : lawful Nat.compare.
Proof.
  split; [|split].
  - apply Nat.compare_eq.
  - intros x y; apply Nat.compare_antisym.
  - intros x y z H1 H2. rewrite Nat.compare_lt_iff in *; lia.
Qed.

Lemma Z_compare_lawful : lawful Z.compare.
Proof.
  split; [|split].
  - apply Z.compare_eq.
  - intros x y; apply Z.compare_antisym.
  - intros x y z H1 H2. rewrite Z.compare_lt_iff in *; lia.
Qed.

Lemma string_compare_lawful : lawful String.compare.
Proof.
  split; [|split].
  - apply String.compare_eq_iff.
  - apply String.compare_antisym.
  - induction x as [|a x IH]; intros [|b y] [|c z]; simpl; try discriminate; auto.
    unfold Ascii.compare.
    destruct (N.compare (N_of_ascii a) (N_of_ascii b)) eqn:E1; try discriminate;
    destruct (N.compare (N_of_ascii b) (N_of_ascii c)) eqn:E2; try discriminate; intros H1 H2.
    + apply N.compare_eq_iff in E1, E2. rewrite E1, E2, N.compare_refl. eauto.
    + apply N.compare_eq_iff in E1. now rewrite E1, E2.
    + apply N.compare_eq_iff in E2. now rewrite <- E2, E1.
    + rewrite N.compare_lt_iff in E1, E2.
      replace (N.compare (N_of_ascii a) (N_of_ascii c)) with Lt
        by (symmetry; apply N.compare_lt_iff; lia).
      reflexivity.
Qed.

Definition key_shape (k : sort_key) : nat * (string * (string * option (string * Z))) :=
  let '(r, n, v, e) := k in (r, (n, (v, e))).

Definition key_cmp_shaped :=
  lex_cmp Nat.compare
    (lex_cmp String.compare
       (lex_cmp String.compare (opt_cmp (lex_cmp String.compare Z.compare)))).

Lemma key_cmp_shape : forall k1 k2, key_cmp k1 k2 = key_cmp_shaped (key_shape k1) (key_shape k2).
Proof. intros [[[r1 n1] v1] e1] [[[r2 n2] v2] e2]; reflexivity. Qed.

Lemma key_cmp_lawful : lawful key_cmp.
Proof.
  assert (L : lawful key_cmp_shaped).
  { unfold key_cmp_shaped.
    repeat (apply lex_cmp_lawful || apply opt_cmp_lawful); auto using
      nat_compare_lawful, string_compare_lawful, Z_compare_lawful. }
  destruct L as [E [A T]]. split; [|split]; intros; rewrite ?key_cmp_shape in *.
  - apply E in H. destruct x as [[[? ?] ?] ?], y as [[[? ?] ?] ?]; simpl in H.
    now inversion H.
  - apply A.
  - eauto.
Qed.

(** ** [sort_values] sorts and permutes *)

Definition row_le (env : bool) (a b : frame_row) : Prop := row_leb env a b = true.

Lemma key_cmp_refl : forall k, key_cmp k k = Eq.
Proof. apply lawful_refl, key_cmp_lawful. Qed.

Lemma row_leb_total : forall env a b, row_leb env a b = false -> row_leb env b a = true.
Proof.
  unfold row_leb; intros env a b H.
  destruct key_cmp_lawful as [_ [A _]].
  rewrite A in H. destruct (key_cmp (row_key env b) (row_key env a)); simpl in H;
    try discriminate; reflexivity.
Qed.

Lemma row_le_trans : forall env, Transitive (row_le env).
Proof.
  intros env a b c; unfold row_le, row_leb.
  destruct key_cmp_lawful as [E [_ T]].
  destruct (key_cmp (row_key env a) (row_key env b)) eqn:E1; try discriminate;
  destruct (key_cmp (row_key env b) (row_key env c)) eqn:E2; try discriminate; intros _ _.
  - apply E in E1; rewrite E1, E2; reflexivity.
  - apply E in E1; rewrite E1, E2; reflexivity.
  - apply E in E2; rewrite <- E2, E1; reflexivity.
  - rewrite (T _ _ _ E1 E2); reflexivity.
Qed.

Lemma insert_row_perm : forall env x l, Permutation (x :: l) (insert_row env x l).
Proof.
  intros env x l; induction l as [|y l IH]; simpl; [reflexivity|].
  destruct (row_leb env x y); [reflexivity|].
  transitivity (y :: x :: l); [apply perm_swap | now constructor].
Qed.

Lemma insert_row_sorted : forall env x l,
  Sorted (row_le env) l -> Sorted (row_le env) (insert_row env x l).
Proof.
  intros env x l; induction l as [|y l IH]; simpl; intros H.
  - repeat constructor.
  - destruct (row_leb env x y) eqn:Exy.
    + constructor; [exact H | constructor; exact Exy].
    + apply Sorted_inv in H as [Hl Hhd].
      constructor; [now apply IH|].
      destruct l as [|z l]; simpl.
      * constructor; now apply row_leb_total.
      * destruct (row_leb env x z); constructor.
        -- now apply row_leb_total.
        -- now apply HdRel_inv in Hhd.
Qed.

Lemma sort_values_perm : forall env l, Permutation l (sort_values env l).
Proof.
  intros env l; induction l as [|x l IH]; simpl; [reflexivity|].
  rewrite <- insert_row_perm. now constructor.
Qed.

Lemma sort_values_sorted : forall env l, StronglySorted (row_le env) (sort_values env l).
Proof.
  intros env l. apply Sorted_StronglySorted; [apply row_le_trans|].
  induction l as [|x l IH]; simpl; [constructor | now apply insert_row_sorted].
Qed.

Lemma strongly_sorted_nth : forall {A} (R : A -> A -> Prop) l i j a b,
  StronglySorted R l -> i < j -> nth_error l i = Some a -> nth_error l j = Some b -> R a b.
Proof.
  intros A R l; induction l as [|x l IH]; intros i j a b H Hij Hi Hj;
    [destruct i; discriminate|].
  apply StronglySorted_inv in H as [Hs Hall].
  destruct i as [|i], j as [|j]; simpl in Hi, Hj; try lia.
  - injection Hi as <-. rewrite Forall_forall in Hall. apply Hall, nth_error_In with j, Hj.
  - apply (IH i j); auto; lia.
Qed.

(** Claim C2: [sort_values] returns a permutation of its input in which, for
    any two rows, a row of a higher-precedence category (rank 0 Critical, 1
    High, 2 Medium, 3 Low, 4 no recognised category) comes first; rows of
    equal category are ordered by (packagename, packageversion), and, in the
    environment case, rows that also agree on those by (appname,
    deploymentid). *)
Theorem sort_values_order : forall env df,
  Permutation df (sort_values env df) /\
  forall i j ri rj,
    i < j -> nth_error (sort_values env df) i = Some ri ->
    nth_error (sort_values env df) j = Some rj ->
    let ci := cat_sort_rank (to_categorical (f_risklevel ri)) in
    let cj := cat_sort_rank (to_categorical (f_risklevel rj)) in
    (ci <> cj -> ci < cj) /\
    (ci = cj ->
       String.compare (f_packagename ri) (f_packagename rj) = Lt \/
       (f_packagename ri = f_packagename rj /\
        String.compare (f_packageversion ri) (f_packageversion rj) <> Gt)) /\
    (env = true -> ci = cj -> f_packagename ri = f_packagename rj ->
       f_packageversion ri = f_packageversion rj ->
       String.compare (f_appname ri) (f_appname rj) = Lt \/
       (f_appname ri = f_appname rj /\ (f_deploymentid ri <= f_deploymentid rj)%Z)).
Proof.
  intros env df; split; [apply sort_values_perm|].
  intros i j ri rj Hij Hi Hj ci cj.
  pose proof (strongly_sorted_nth _ _ _ _ _ _ (sort_values_sorted env df) Hij Hi Hj) as Hle.
  unfold row_le, row_leb, key_cmp, row_key, lex in Hle. fold ci cj in Hle.
  destruct (Nat.compare ci cj) eqn:Ec.
  - apply Nat.compare_eq in Ec.
    split; [contradiction|]. split.
    + intros _. destruct (String.compare (f_packagename ri) (f_packagename rj)) eqn:En;
        try discriminate; [right | left; reflexivity].
      apply String.compare_eq_iff in En. split; [exact En|].
      destruct (String.compare (f_packageversion ri) (f_packageversion rj)); discriminate.
    + intros -> _ En Ev. rewrite En, Ev, !(lawful_refl _ string_compare_lawful) in Hle.
      simpl in Hle.
      destruct (String.compare (f_appname ri) (f_appname rj)) eqn:Ea; try discriminate;
        [right | left; reflexivity].
      apply String.compare_eq_iff in Ea. split; [exact Ea|].
      destruct (Z.compare (f_deploymentid ri) (f_deploymentid rj)) eqn:Ed; try discriminate;
        [apply Z.compare_eq in Ed; lia | rewrite Z.compare_lt_iff in Ed; lia].
  - rewrite Nat.compare_lt_iff in Ec. repeat split; intros; lia.
  - discriminate.
Qed.

Lemma sort_values_order_witness :
  nth_error (sort_values false [frame_ex "Low" "a"; frame_ex "High" "b"]) 0
    = Some (frame_ex "High" "b") /\
  nth_error (sort_values false [frame_ex "Low" "a"; frame_ex "High" "b"]) 1
    = Some (frame_ex "Low" "a") /\
  cat_sort_rank (to_categorical "High") < cat_sort_rank (to_categorical "Low").
Proof.
  split; [reflexivity|]. split; [reflexivity|].
  destruct (sort_values_order false [frame_ex "Low" "a"; frame_ex "High" "b"]) as [_ H].
  refine (proj1 (H 0 1 (frame_ex "High" "b") (frame_ex "Low" "a") _ eq_refl eq_refl) _);
    [lia | discriminate].
Defined.

(** ** Severity tables *)

Definition display_row_eq_dec : forall x y : display_row, {x = y} + {x <> y}.
Proof.
  decide equality;
    first [apply string_dec | apply (opt_eq_dec string_dec) | apply (opt_eq_dec Z.eq_dec)].
Defined.

Lemma categorical_recast : forall s,
  to_categorical (replace_nan (cat_astype_str (to_categorical s))) = to_categorical s.
Proof.
  intros s. destruct (to_categorical s) as [c|] eqn:E; [destruct c|]; reflexivity.
Qed.

Lemma row_key_recast : forall env r, row_key env (recast_risk r) = row_key env r.
Proof. intros env r. unfold row_key; simpl. now rewrite categorical_recast. Qed.

Lemma recast_level : forall r, In (f_risklevel (recast_risk r)) levels.
Proof.
  intros r; simpl. destruct (to_categorical (f_risklevel r)) as [c|]; [destruct c|];
    simpl; auto 6.
Qed.

Lemma strongly_sorted_map : forall {A} (R : A -> A -> Prop) (f : A -> A) l,
  (forall a b, R a b -> R (f a) (f b)) -> StronglySorted R l -> StronglySorted R (map f l).
Proof.
  intros A R f l Hf; induction l as [|x l IH]; simpl; intros H; [constructor|].
  apply StronglySorted_inv in H as [Hs Hall]. constructor; [auto|].
  rewrite Forall_forall in *. intros y Hy. apply in_map_iff in Hy as [z [<- Hz]]. auto.
Qed.

Lemma strongly_sorted_filter : forall {A} (R : A -> A -> Prop) p l,
  StronglySorted R l -> StronglySorted R (filter p l).
Proof.
  intros A R p l; induction l as [|x l IH]; simpl; intros H; [constructor|].
  apply StronglySorted_inv in H as [Hs Hall]. destruct (p x); [|auto].
  constructor; [auto|]. rewrite Forall_forall in *. intros y Hy.
  apply filter_In in Hy as [Hy _]. auto.
Qed.

Lemma classify_and_sort_sorted : forall env df,
  StronglySorted (row_le env) (classify_and_sort env df).
Proof.
  intros env df. apply strongly_sorted_map; [|apply sort_values_sorted].
  intros a b. unfold row_le, row_leb. now rewrite !row_key_recast.
Qed.

Lemma filter_map_comm : forall {A B} (p : B -> bool) (f : A -> B) l,
  filter p (map f l) = map f (filter (fun x => p (f x)) l).
Proof.
  intros A B p f l; induction l as [|x l IH]; simpl; [reflexivity|].
  destruct (p (f x)); simpl; now rewrite IH.
Qed.

Lemma count_occ_filter : forall {A} eq_dec (p : A -> bool) l x,
  count_occ eq_dec (filter p l) x = if p x then count_occ eq_dec l x else 0.
Proof.
  intros A eq_dec p l x; induction l as [|y l IH]; simpl; [destruct (p x); reflexivity|].
  destruct (p y) eqn:Ey; simpl; rewrite IH;
    destruct (eq_dec y x) as [->|Hne]; rewrite ?Ey; destruct (p x); try reflexivity; lia.
Qed.

Lemma display_frame_levels : forall env df d,
  In d (display_frame env df) -> In (d_risk_level d) levels.
Proof.
  intros env df d Hd. unfold display_frame, classify_and_sort in Hd.
  rewrite map_map in Hd. apply in_map_iff in Hd as [r [<- _]].
  apply recast_level.
Qed.

Lemma level_exactly_one : forall s, In s levels ->
  List.length (filter (String.eqb s) levels) = 1.
Proof. intros s Hs; repeat (destruct Hs as [<-|Hs]; [reflexivity|]); contradiction. Qed.

Lemma count_occ_not_in : forall l x,
  ~ In x l -> count_occ display_row_eq_dec l x = 0.
Proof. intros l x H. now apply count_occ_not_In. Qed.

(** Claim C8: after sorting, the five tables (Critical, High, Medium, Low and
    the empty level) partition the rows: their concatenation is a
    permutation of all rows, every row has exactly one of the five levels,
    each table keeps the sort order, and its rendered rows are the
    [Risk Level]-less [table_row]s of those rows. *)
Theorem partition_spec : forall env df,
  let rows := display_frame env df in
  Permutation rows
    (bucket_rows "Critical" rows ++ bucket_rows "High" rows ++ bucket_rows "Medium" rows
     ++ bucket_rows "Low" rows ++ bucket_rows EmptyString rows) /\
  (forall d, In d rows -> List.length (filter (String.eqb (d_risk_level d)) levels) = 1) /\
  (forall lvl, exists fr,
      StronglySorted (row_le env) fr /\
      bucket_rows lvl rows = map (fun r => link_cve (to_display env r)) fr /\
      (forall r, In r fr -> In r (classify_and_sort env df))) /\
  partition_tables rows =
    mk_tables (map drop_risk (bucket_rows "Critical" rows)) (map drop_risk (bucket_rows "High" rows))
              (map drop_risk (bucket_rows "Medium" rows)) (map drop_risk (bucket_rows "Low" rows))
              (map drop_risk (bucket_rows EmptyString rows)).
Proof.
  intros env df rows. split; [|split; [|split]].
  - apply (Permutation_count_occ display_row_eq_dec). intros x.
    unfold bucket_rows. rewrite !count_occ_app, !count_occ_filter.
    destruct (in_dec display_row_eq_dec x rows) as [Hin|Hout].
    + pose proof (display_frame_levels env df x Hin) as Hl.
      repeat (destruct Hl as [Hl|Hl]; [rewrite <- Hl; simpl; lia|]); contradiction.
    + rewrite count_occ_not_in by exact Hout.
      destruct (String.eqb (d_risk_level x) "Critical"), (String.eqb (d_risk_level x) "High"),
        (String.eqb (d_risk_level x) "Medium"), (String.eqb (d_risk_level x) "Low"),
        (String.eqb (d_risk_level x) EmptyString); reflexivity.
  - intros d Hd. apply level_exactly_one, (display_frame_levels env df d Hd).
  - intros lvl. exists (filter (fun r => String.eqb (f_risklevel r) lvl) (classify_and_sort env df)).
    split; [apply strongly_sorted_filter, classify_and_sort_sorted|]. split.
    + unfold rows, bucket_rows, display_frame. now rewrite filter_map_comm.
    + intros r Hr. now apply filter_In in Hr as [Hr _].
  - reflexivity.
Qed.

Lemma row_le_rank : forall env a b, row_le env a b ->
  cat_sort_rank (to_categorical (f_risklevel a)) <= cat_sort_rank (to_categorical (f_risklevel b)).
Proof.
  unfold row_le, row_leb, key_cmp, row_key, lex; intros env a b H.
  destruct (Nat.compare _ _) eqn:E; try discriminate.
  - apply Nat.compare_eq in E; lia.
  - rewrite Nat.compare_lt_iff in E; lia.
Qed.

(** Claim C10: only the exact strings "Critical", "High", "Medium" and
    "Low" are recognised; any other risk level (for instance "Unknown") is
    rendered as the empty level, lands in the no-risk table, and sorts after
    every row of a recognised category. *)
Theorem unknown_risk_collapse :
  (forall s, to_categorical s = None <->
             s <> "Critical" /\ s <> "High" /\ s <> "Medium" /\ s <> "Low") /\
  to_categorical "Unknown" = None /\
  (forall env df r, In r df -> to_categorical (f_risklevel r) = None ->
     f_risklevel (recast_risk r) = EmptyString /\
     In (link_cve (to_display env (recast_risk r))) (bucket_rows EmptyString (display_frame env df))) /\
  (forall env df i j ri rj,
     nth_error (sort_values env df) i = Some ri -> nth_error (sort_values env df) j = Some rj ->
     to_categorical (f_risklevel ri) = None -> to_categorical (f_risklevel rj) <> None -> j < i).
Proof.
  split; [|split; [|split]].
  - intros s. unfold to_categorical, categories; cbn [find cat_name].
    destruct (String.eqb "Critical" s) eqn:E1;
      [apply String.eqb_eq in E1; subst; split; [discriminate | intuition]|].
    destruct (String.eqb "High" s) eqn:E2;
      [apply String.eqb_eq in E2; subst; split; [discriminate | intuition]|].
    destruct (String.eqb "Medium" s) eqn:E3;
      [apply String.eqb_eq in E3; subst; split; [discriminate | intuition]|].
    destruct (String.eqb "Low" s) eqn:E4;
      [apply String.eqb_eq in E4; subst; split; [discriminate | intuition]|].
    apply String.eqb_neq in E1, E2, E3, E4. split; [intros _; auto | reflexivity].
  - reflexivity.
  - intros env df r Hr Hn.
    assert (Hs : f_risklevel (recast_risk r) = EmptyString) by (simpl; now rewrite Hn).
    split; [exact Hs|].
    unfold bucket_rows, display_frame, classify_and_sort. apply filter_In. split.
    + apply (in_map (fun r => link_cve (to_display env r))), in_map. apply Permutation_in with df; [apply sort_values_perm | exact Hr].
    + simpl. rewrite Hn. reflexivity.
  - intros env df i j ri rj Hi Hj Hni Hnj.
    destruct (Nat.lt_trichotomy j i) as [Hlt | [Heq | Hgt]]; [exact Hlt | |].
    + subst. rewrite Hi in Hj. injection Hj as ->. contradiction.
    + exfalso. pose proof (strongly_sorted_nth _ _ _ _ _ _ (sort_values_sorted env df) Hgt Hi Hj) as H.
      apply row_le_rank in H. rewrite Hni in H.
      destruct (to_categorical (f_risklevel rj)) as [c|]; [destruct c; simpl in H; lia | contradiction].
Qed.

Lemma unknown_risk_collapse_witness :
  nth_error (sort_values true [frame_ex "Unknown" "a"; frame_ex "Low" "b"]) 1
    = Some (frame_ex "Unknown" "a") /\
  nth_error (sort_values true [frame_ex "Unknown" "a"; frame_ex "Low" "b"]) 0
    = Some (frame_ex "Low" "b") /\
  0 < 1.
Proof.
  split; [reflexivity|]. split; [reflexivity|].
  destruct unknown_risk_collapse as [_ [_ [_ H]]].
  apply (H true [frame_ex "Unknown" "a"; frame_ex "Low" "b"] 1 0
           (frame_ex "Unknown" "a") (frame_ex "Low" "b")); [reflexivity | reflexivity | reflexivity | discriminate].
Defined.

Lemma partition_spec_witness :
  List.length (filter (String.eqb (d_risk_level
    (link_cve (to_display false (recast_risk (frame_ex "Unknown" "b")))))) levels) = 1.
Proof.
  destruct (partition_spec false [frame_ex "High" "a"; frame_ex "Unknown" "b"]) as [_ [Hone _]].
  apply Hone. vm_compute. right. left. reflexivity.
Defined.

(** ** Correlation *)

Definition merge_block (vulns : list vuln_row) (p : pkg_row) : list (pkg_row * option vuln_row) :=
  match filter (same_key p) vulns with
  | [] => [(p, None)]
  | ms => map (fun v => (p, Some v)) ms
  end.

Definition row_of (p : pkg_row) (r : pkg_row * option vuln_row) : bool :=
  if pkg_row_eq_dec (fst r) p then true else false.

Lemma filter_flat_map : forall {A B} (p : B -> bool) (f : A -> list B) l,
  filter p (flat_map f l) = flat_map (fun x => filter p (f x)) l.
Proof.
  intros A B p f l; induction l as [|x l IH]; simpl; [reflexivity|].
  now rewrite filter_app, IH.
Qed.

Lemma filter_merge_block : forall vulns p q,
  filter (row_of p) (merge_block vulns q) = if pkg_row_eq_dec q p then merge_block vulns q else [].
Proof.
  intros vulns p q. unfold merge_block, row_of.
  destruct (filter (same_key q) vulns) as [|v vs]; simpl.
  - destruct (pkg_row_eq_dec q p); reflexivity.
  - destruct (pkg_row_eq_dec q p) as [->|Hne]; f_equal.
    + induction vs as [|w vs IH]; simpl; [reflexivity|].
      destruct (pkg_row_eq_dec p p); [now f_equal | contradiction].
    + induction vs as [|w vs IH]; simpl; [reflexivity|].
      destruct (pkg_row_eq_dec q p); [contradiction | exact IH].
Qed.

Lemma flat_map_only : forall vulns p l,
  ~ In p l -> flat_map (fun q => if pkg_row_eq_dec q p then merge_block vulns q else []) l = [].
Proof.
  intros vulns p l H; induction l as [|q l IH]; simpl; [reflexivity|].
  destruct (pkg_row_eq_dec q p) as [->|Hne]; [exfalso; apply H; now left|].
  apply IH. intros Hin; apply H; now right.
Qed.

Lemma str_in_iff : forall s l, str_in s l = true <-> In s l.
Proof.
  intros s l. unfold str_in. rewrite existsb_exists. split.
  - intros [x [Hx Heq]]. apply String.eqb_eq in Heq. now subst.
  - intros H. exists s. split; [exact H | apply String.eqb_refl].
Qed.

Lemma correlate_rows_of : forall pkgs staged persisted p,
  NoDup pkgs -> In p pkgs ->
  filter (row_of p) (correlate pkgs staged persisted)
  = merge_block (candidate_vulns pkgs staged persisted) p.
Proof.
  intros pkgs staged persisted p Hnd Hin.
  assert (E : correlate pkgs staged persisted
              = merge_left pkgs (candidate_vulns pkgs staged persisted))
    by (destruct pkgs; [contradiction | reflexivity]).
  rewrite E. generalize (candidate_vulns pkgs staged persisted) as vulns; intros vulns.
  unfold merge_left. fold (merge_block vulns).
  rewrite filter_flat_map.
  erewrite flat_map_ext by (intros q; apply filter_merge_block).
  destruct (in_split _ _ Hin) as [l1 [l2 ->]].
  apply NoDup_remove_2 in Hnd. rewrite in_app_iff in Hnd.
  rewrite flat_map_app; simpl. rewrite !flat_map_only by tauto.
  destruct (pkg_row_eq_dec p p) as [_|]; [|contradiction].
  rewrite app_nil_r. reflexivity.
Qed.

(** Claim C1: in the left merge of the package table with the deduplicated
    staged-plus-persisted candidates, the rows of a package [p] (packages
    being distinct, as produced by the SQL [UNION]) are exactly one row per
    distinct stored vulnerability with [p]'s name and version, or the single
    row [(p, None)] whose filled vulnerability columns are empty (no
    recognised risk) when there is none. *)
Theorem correlate_complete : forall pkgs staged persisted p,
  NoDup pkgs -> In p pkgs ->
  let rows := correlate pkgs staged persisted in
  let ms := filter (same_key p) (candidate_vulns pkgs staged persisted) in
  NoDup ms /\
  (forall v, In v ms <-> In v (staged ++ persisted) /\ same_key p v = true) /\
  filter (row_of p) rows = match ms with
                           | [] => [(p, None)]
                           | _ => map (fun v => (p, Some v)) ms
                           end /\
  List.length (filter (row_of p) rows) = Nat.max 1 (List.length ms) /\
  (ms = [] ->
     let f := fill_row (p, None) in
     f_id f = EmptyString /\ f_purl f = EmptyString /\ f_cve_summary f = EmptyString /\
     f_risklevel f = EmptyString /\ to_categorical (f_risklevel f) = None).
Proof.
  intros pkgs staged persisted p Hnd Hin rows ms.
  assert (Hms : filter (row_of p) rows = match ms with
                                         | [] => [(p, None)]
                                         | _ => map (fun v => (p, Some v)) ms
                                         end)
    by (unfold rows, ms; rewrite correlate_rows_of by assumption;
        unfold merge_block; destruct (filter _ _); reflexivity).
  split; [|split; [|split; [exact Hms | split]]].
  - apply NoDup_filter, NoDup_nodup.
  - intros v. unfold ms, candidate_vulns, sql_union.
    rewrite filter_In, nodup_In, in_app_iff, !filter_In, in_app_iff. split.
    + intros [[[H _]|[H _]] Hk]; auto.
    + intros [Hv Hk]. split; [|exact Hk].
      assert (Hsel : vuln_selected (pkglist pkgs) (purllist pkgs) v = true).
      { unfold vuln_selected. apply orb_true_intro; left. apply str_in_iff.
        unfold same_key in Hk. apply andb_prop in Hk as [H1 H2].
        apply String.eqb_eq in H1, H2. rewrite <- H1, <- H2.
        unfold pkglist. apply (in_map (fun q => packagename q ++ "@" ++ packageversion q)), Hin. }
      destruct Hv; auto.
  - rewrite Hms. destruct ms; simpl; [reflexivity|]. now rewrite length_map.
  - intros _; repeat split.
Qed.

Lemma correlate_complete_witness :
  List.length (filter (row_of pkg_ex)
    (correlate [pkg_ex] [vuln_ex "CVE-1" "High"; vuln_ex "CVE-2" "Low"]
               [vuln_ex "CVE-1" "High"])) = 2.
Proof.
  destruct (correlate_complete [pkg_ex] [vuln_ex "CVE-1" "High"; vuln_ex "CVE-2" "Low"]
              [vuln_ex "CVE-1" "High"] pkg_ex) as [_ [_ [_ [Hlen _]]]];
    [repeat constructor; simpl; tauto | now left |].
  rewrite Hlen. vm_compute. reflexivity.
Defined.

(** ** Retry loop *)

Lemma retry_loop_first_stop {A} fuel n (run : nat -> exn + A) e :
  run 1 = inl e -> is_transient e = false -> retry_loop fuel 1 n run = (inl e, []).
Proof. intros H Ht. destruct fuel; simpl; rewrite H, Ht; reflexivity. Qed.

Lemma retry_loop_all_fail {A} (P : exn -> Prop) (run : nat -> exn + A) n : forall fuel attempt,
  (forall k, exists e, run k = inl e /\ P e) ->
  exists e, fst (retry_loop fuel attempt n run) = inl e /\ P e.
Proof.
  induction fuel as [|fuel IH]; intros attempt Hrun; simpl;
    destruct (Hrun attempt) as [e [-> He]];
    destruct (is_transient e); try (exists e; split; [reflexivity | exact He]);
    destruct (Nat.ltb attempt n); try (exists e; split; [reflexivity | exact He]).
  destruct (IH (S attempt) Hrun) as [e' [E' He']].
  destruct (retry_loop fuel (S attempt) n run) as [r sl]. simpl in *. subst r.
  exists e'. split; [reflexivity | exact He'].
Qed.

(** Claim C3: a connection loss is retried only when SQLAlchemy reports
    it.  When the server goes away after [engine.connect()] of attempt 1
    succeeded, the first statement, [CREATE TEMPORARY TABLE] on the raw
    psycopg2 cursor, raises [psycopg2.OperationalError], which the [except
    (InterfaceError, OperationalError)] of line 571 (the [sqlalchemy.exc]
    classes) does not catch: the request is answered with a 500 error at
    once, with no sleep and no further attempt, whatever the later attempts
    would do.  The same loss reported by [engine.connect()] on attempts 1
    and 2 is retried twice, 200 ms apart, and the third attempt's report is
    returned. *)
Theorem retry_misses_cursor_errors :
  (forall n cfg db lost http sess raw,
     lost 1 Connect = false -> lost 1 CreateTables = true ->
     export_sbom_trace n cfg db lost http sess raw
       = (ErrorResponse 500 "server closed the connection unexpectedly", [])) /\
  (forall cfg db lost http sess raw rep,
     lost 1 Connect = true -> lost 2 Connect = true -> lost 3 Connect = false ->
     fst (attempt_body cfg db http (lost 3) (normalize_ids raw) sess) = inr rep ->
     export_sbom_trace 3 cfg db lost http sess raw = (HTMLResponse rep, [200; 200])).
Proof.
  split.
  - intros n cfg db lost http sess raw Hc Hs. unfold export_sbom_trace.
    rewrite (retry_loop_first_stop n n _ (conn_lost CreateTables)); [reflexivity| |reflexivity].
    unfold run_attempt. rewrite Hc. unfold attempt_body, bind at 1, db_call. rewrite Hs.
    reflexivity.
  - intros cfg db lost http sess raw rep H1 H2 H3 H. unfold export_sbom_trace. simpl.
    unfold run_attempt. rewrite H1, H2, H3, H. reflexivity.
Qed.

Lemma retry_misses_cursor_errors_witness :
  export_sbom_trace 3 cfg_a db_a (fun k st => Nat.eqb k 1 && db_site_eqb st CreateTables)
    http_a sess0 ids_a
  = (ErrorResponse 500 "server closed the connection unexpectedly", []) /\
  exists rep, export_sbom_trace 3 cfg_a db_a (fun k st => Nat.ltb k 3 && db_site_eqb st Connect)
                http_a sess0 ids_a = (HTMLResponse rep, [200; 200]).
Proof.
  split.
  - apply (proj1 retry_misses_cursor_errors); reflexivity.
  - destruct (fst (attempt_body cfg_a db_a http_a
                     ((fun k st => Nat.ltb k 3 && db_site_eqb st Connect) 3)
                     (normalize_ids ids_a) sess0)) as [e|rep] eqn:E.
    + vm_compute in E. discriminate.
    + exists rep. apply (proj2 retry_misses_cursor_errors); [reflexivity..| exact E].
Defined.

(** ** Computations that read the staging tables but not the log *)

Lemma rt_ret {A} (a : A) : reads_tables (ret a).
Proof. intros s1 s2 H; split; [reflexivity | exact H]. Qed.

Lemma rt_raise {A} (e : exn) : reads_tables (@raise A e).
Proof. intros s1 s2 H; split; [reflexivity | exact H]. Qed.

Lemma rt_get_stage : reads_tables get_stage.
Proof. intros s1 s2 [H1 H2]; split; [simpl; congruence | split; assumption]. Qed.

Lemma rt_get_staged_vulns : reads_tables get_staged_vulns.
Proof. intros s1 s2 [H1 H2]; split; [simpl; congruence | split; assumption]. Qed.

Lemma rt_bind {A B} (m : M A) (k : A -> M B) :
  reads_tables m -> (forall a, reads_tables (k a)) -> reads_tables (bind m k).
Proof.
  intros Hm Hk s1 s2 H. unfold bind.
  destruct (Hm s1 s2 H) as [E1 E2].
  destruct (m s1) as [[e|a] s1'], (m s2) as [[e'|a'] s2']; simpl in *;
    try discriminate.
  - inversion E1; subst. split; [reflexivity | exact E2].
  - inversion E1; subst. apply Hk; exact E2.
Qed.

Lemma rt_key_param (s : string) : reads_tables (key_param s).
Proof. unfold key_param. destruct (pg_int s); [apply rt_ret | apply rt_raise]. Qed.

Lemma rt_db_call lost st : reads_tables (db_call lost st).
Proof. unfold db_call. destruct (lost st); [apply rt_raise | apply rt_ret]. Qed.

Lemma rt_key_query lost st s : reads_tables (key_query lost st s).
Proof.
  unfold key_query. destruct (no_char nul s); [|apply rt_raise].
  apply rt_bind; [apply rt_db_call | intros; apply rt_key_param].
Qed.

Create HintDb reads_db.
#[local] Hint Resolve rt_ret rt_raise rt_get_stage rt_get_staged_vulns rt_key_param
  rt_db_call rt_key_query : reads_db.

Ltac reads_tac :=
  repeat match goal with
         | |- reads_tables (bind _ _) => apply rt_bind; [|intro]
         | |- reads_tables (match ?x with _ => _ end) => destruct x
         | |- reads_tables _ => solve [auto with reads_db]
         end.

Lemma rt_read_sql_pkgs db lost st ps : reads_tables (read_sql_pkgs db lost st ps).
Proof. unfold read_sql_pkgs. reads_tac. Qed.

Lemma rt_lookup_objname db lost i : reads_tables (lookup_objname db lost i).
Proof. unfold lookup_objname. reads_tac. Qed.

Lemma rt_component_summaries db lost i : reads_tables (component_summaries db lost i).
Proof. unfold component_summaries. reads_tac. Qed.

#[local] Hint Resolve rt_read_sql_pkgs rt_lookup_objname rt_component_summaries : reads_db.

Lemma rt_report_stage db lost i d : reads_tables (report_stage db lost i d).
Proof. unfold report_stage. destruct (select_stmt i). reads_tac. Qed.

(** ** Enrichment *)

Lemma fetch_licenses_fails cfg http lost i cl s :
  enrich_fails http (license_url cfg i cl) = true ->
  exists s1, same_tables s1 s /\ fetch_licenses cfg http lost i cl s = (inr tt, s1).
Proof.
  unfold enrich_fails, fetch_licenses, try_except, bind, http_get.
  destruct (http (license_url cfg i cl)) as [msg|code [rs|]]; intros H.
  - eexists; split; [|reflexivity]; split; reflexivity.
  - rewrite orb_false_r in H. rewrite H. eexists; split; [|reflexivity]; split; reflexivity.
  - destruct ((400 <=? code)%Z && (code <? 600)%Z);
      eexists; (split; [|reflexivity]); split; reflexivity.
Qed.

Lemma fetch_vulns_fails cfg http lost i cl s :
  enrich_fails http (vuln_url cfg i cl) = true ->
  exists s1, same_tables s1 s /\ fetch_vulns cfg http lost i cl s = (inr tt, s1).
Proof.
  unfold enrich_fails, fetch_vulns, try_except, bind, http_get.
  destruct (http (vuln_url cfg i cl)) as [msg|code [rs|]]; intros H.
  - eexists; split; [|reflexivity]; split; reflexivity.
  - rewrite orb_false_r in H. rewrite H. eexists; split; [|reflexivity]; split; reflexivity.
  - destruct ((400 <=? code)%Z && (code <? 600)%Z);
      eexists; (split; [|reflexivity]); split; reflexivity.
Qed.

Lemma same_tables_trans s1 s2 s3 : same_tables s1 s2 -> same_tables s2 s3 -> same_tables s1 s3.
Proof. intros [H1 H2] [H3 H4]. split; congruence. Qed.

Lemma same_tables_refl s : same_tables s s.
Proof. split; reflexivity. Qed.

Lemma enrich_fails_tables cfg http lost i cl s :
  enrich_fails http (license_url cfg i cl) = true ->
  enrich_fails http (vuln_url cfg i cl) = true ->
  exists s1, same_tables s1 s /\ enrich cfg http lost i cl s = (inr tt, s1).
Proof.
  intros H1 H2. unfold enrich.
  destruct (_ && _).
  - unfold bind. destruct (fetch_licenses_fails cfg http lost i cl s H1) as [s1 [T1 E1]].
    rewrite E1. destruct (fetch_vulns_fails cfg http lost i cl s1 H2) as [s2 [T2 E2]].
    rewrite E2. exists s2. split; [exact (same_tables_trans _ _ _ T2 T1) | reflexivity].
  - exists s. split; [apply same_tables_refl | reflexivity].
Qed.

Lemma http_error_status code :
  (400 <= code < 600)%Z -> ((400 <=? code)%Z && (code <? 600)%Z) = true.
Proof. intros H. apply andb_true_intro. split; [apply Z.leb_le | apply Z.ltb_lt]; lia. Qed.

Lemma http_ok_status code :
  ~ (400 <= code < 600)%Z -> ((400 <=? code)%Z && (code <? 600)%Z) = false.
Proof.
  intros H. destruct (Z.leb_spec 400 code), (Z.ltb_spec code 600); try reflexivity. lia.
Qed.

(** Claim C4: each of the two GET calls of the enrichment step is
    best-effort on its own.  A network error or an HTTP error status of
    the license GET is caught and logged (one [print] line, "An error
    occurred: ..." or "HTTP error occurred: ..."), nothing is staged and
    nothing is raised; a success answer without [data] changes nothing at
    all; the same holds for the vulnerability GET.  When the license GET so
    fails, the step goes on with the vulnerability GET on unchanged staging
    tables; when the vulnerability GET fails, the step's outcome and staging
    tables are those of the license GET alone.  When both fail, whatever the
    state of the database connection, the attempt's result is the one it
    has with enrichment switched off, i.e. it is computed from the data
    already persisted. *)
Theorem enrichment_best_effort :
  (forall cfg http lost i cl s msg,
     http (license_url cfg i cl) = NetworkFailure msg ->
     fetch_licenses cfg http lost i cl s = print ("An error occurred: " ++ msg) s) /\
  (forall cfg http lost i cl s code data,
     http (license_url cfg i cl) = Response code data -> (400 <= code < 600)%Z ->
     exists m, fetch_licenses cfg http lost i cl s = print ("HTTP error occurred: " ++ m) s) /\
  (forall cfg http lost i cl s code,
     http (license_url cfg i cl) = Response code None -> ~ (400 <= code < 600)%Z ->
     fetch_licenses cfg http lost i cl s = (inr tt, s)) /\
  (forall cfg http lost i cl s msg,
     http (vuln_url cfg i cl) = NetworkFailure msg ->
     fetch_vulns cfg http lost i cl s = print ("An error occurred: " ++ msg) s) /\
  (forall cfg http lost i cl s code data,
     http (vuln_url cfg i cl) = Response code data -> (400 <= code < 600)%Z ->
     exists m, fetch_vulns cfg http lost i cl s = print ("HTTP error occurred: " ++ m) s) /\
  (forall cfg http lost i cl s code,
     http (vuln_url cfg i cl) = Response code None -> ~ (400 <= code < 600)%Z ->
     fetch_vulns cfg http lost i cl s = (inr tt, s)) /\
  (forall cfg http lost i cl s,
     enrich_fails http (license_url cfg i cl) = true ->
     Nat.ltb 0 (length (deppkg_url cfg))
       && (is_some (compid i) || is_some (appid i) || is_some (envid i)) = true ->
     exists s1, same_tables s1 s /\ enrich cfg http lost i cl s = fetch_vulns cfg http lost i cl s1) /\
  (forall cfg http lost i cl s,
     enrich_fails http (vuln_url cfg i cl) = true ->
     Nat.ltb 0 (length (deppkg_url cfg))
       && (is_some (compid i) || is_some (appid i) || is_some (envid i)) = true ->
     fst (enrich cfg http lost i cl s) = fst (fetch_licenses cfg http lost i cl s) /\
     same_tables (snd (enrich cfg http lost i cl s)) (snd (fetch_licenses cfg http lost i cl s))) /\
  (forall cfg db http lost i s,
     (forall cl, enrich_fails http (license_url cfg i cl) = true /\
                 enrich_fails http (vuln_url cfg i cl) = true) ->
     fst (attempt_body cfg db http lost i s)
       = fst (attempt_body (mk_config EmptyString) db http lost i s)).
Proof.
  split; [|split; [|split; [|split; [|split; [|split; [|split; [|split]]]]]]].
  - intros cfg http lost i cl s msg H.
    unfold fetch_licenses, try_except, bind, http_get. rewrite H. reflexivity.
  - intros cfg http lost i cl s code data H Hc.
    unfold fetch_licenses, try_except, bind, http_get. rewrite H, (http_error_status _ Hc).
    eexists; reflexivity.
  - intros cfg http lost i cl s code H Hc.
    unfold fetch_licenses, try_except, bind, http_get. rewrite H, (http_ok_status _ Hc).
    reflexivity.
  - intros cfg http lost i cl s msg H.
    unfold fetch_vulns, try_except, bind, http_get. rewrite H. reflexivity.
  - intros cfg http lost i cl s code data H Hc.
    unfold fetch_vulns, try_except, bind, http_get. rewrite H, (http_error_status _ Hc).
    eexists; reflexivity.
  - intros cfg http lost i cl s code H Hc.
    unfold fetch_vulns, try_except, bind, http_get. rewrite H, (http_ok_status _ Hc).
    reflexivity.
  - intros cfg http lost i cl s H Hon. unfold enrich. rewrite Hon. unfold bind.
    destruct (fetch_licenses_fails cfg http lost i cl s H) as [s1 [T E]].
    rewrite E. exists s1. split; [exact T | reflexivity].
  - intros cfg http lost i cl s H Hon. unfold enrich. rewrite Hon. unfold bind.
    destruct (fetch_licenses cfg http lost i cl s) as [[e|[]] s1]; simpl.
    + split; [reflexivity | apply same_tables_refl].
    + destruct (fetch_vulns_fails cfg http lost i cl s1 H) as [s2 [T E]].
      rewrite E. split; [reflexivity | exact T].
  - intros cfg db http lost i s Hf. unfold attempt_body, bind at 1 4.
    destruct (db_call lost CreateTables s) as [[e|[]] s0]; [reflexivity|].
    unfold bind at 1 3.
    destruct (resolve_scope db lost i s0) as [[e|sc] s1]; [reflexivity|].
    unfold bind. destruct (Hf (fst sc)) as [H1 H2].
    destruct (enrich_fails_tables cfg http lost i (fst sc) s1 H1 H2) as [s2 [T E]].
    rewrite E. unfold enrich at 1. simpl.
    apply (rt_report_stage db lost i (snd sc)). exact T.
Qed.

Lemma enrichment_best_effort_witness :
  (forall cl, enrich_fails http_down (license_url cfg_a ids_a cl) = true /\
              enrich_fails http_down (vuln_url cfg_a ids_a cl) = true) /\
  fst (attempt_body cfg_a db_a http_down no_lost ids_a sess0)
    = fst (attempt_body (mk_config EmptyString) db_a http_down no_lost ids_a sess0).
Proof.
  assert (Hd : forall cl, enrich_fails http_down (license_url cfg_a ids_a cl) = true /\
                          enrich_fails http_down (vuln_url cfg_a ids_a cl) = true)
    by (intros; split; reflexivity).
  split; [exact Hd|].
  destruct enrichment_best_effort as [_ [_ [_ [_ [_ [_ [_ [_ H]]]]]]]].
  exact (H cfg_a db_a http_down no_lost ids_a sess0 Hd).
Defined.

(** ** Requests without an identifier *)

Lemma attempt_body_no_ids cfg db http lost s :
  exists e, fst (attempt_body cfg db http lost no_ids s) = inl e /\ not_http e.
Proof.
  unfold attempt_body, bind at 1, db_call. destruct (lost CreateTables);
    [eexists; split; [reflexivity | exact I]|].
  unfold ret, bind; simpl. unfold enrich; simpl. rewrite andb_false_r. simpl.
  unfold report_stage, read_sql_pkgs, bind; simpl.
  unfold db_call. destruct (lost ReadPkgs); eexists; (split; [reflexivity | exact I]).
Qed.

(** Claim C5: with none of compid, appid and envid given, the endpoint never
    returns a report: every run of the retry loop ends in a 500 error, since
    the package query is the empty statement [sqlstmt = ""], which the
    driver refuses (or, when the connection is lost, the connection
    error). *)
Theorem no_identifier_error :
  forall cfg db lost http sess,
    exists msg, export_sbom cfg db lost http sess no_ids = ErrorResponse 500 msg.
Proof.
  intros cfg db lost http sess.
  unfold export_sbom, export_sbom_trace. simpl normalize_ids.
  change (mk_ids None None None) with no_ids.
  destruct (retry_loop_all_fail not_http (run_attempt cfg db lost http sess no_ids)
              DB_CONN_RETRY DB_CONN_RETRY 1) as [e [E He]].
  - intros k. unfold run_attempt. destruct (lost k Connect).
    + eexists; split; [reflexivity | exact I].
    + exact (attempt_body_no_ids cfg db http (lost k) sess).
  - destruct (retry_loop _ 1 _ _) as [r sl]. simpl in E. subst r.
    destruct e; try contradiction; eexists; reflexivity.
Qed.

(** ** Integer keys *)

Lemma all_chars_skip (p : ascii -> bool) s :
  (forall c, pg_space c = true -> p c = true) ->
  all_chars p (skip_spaces s) = true -> all_chars p s = true.
Proof.
  intros Hp. induction s as [|c s IH]; simpl; [auto|].
  destruct (pg_space c) eqn:E; simpl; [|auto].
  intros H. rewrite (Hp c E). exact (IH H).
Qed.

Lemma all_chars_scan (p : ascii -> bool) dv base us s : forall acc n v m rest,
  (forall c, is_some (dv c) = true -> p c = true) -> p "_"%char = true ->
  scan_digits dv base us s acc n = Some (v, m, rest) ->
  all_chars p rest = true -> all_chars p s = true.
Proof.
  induction s as [|c s IH]; intros acc n v m rest Hd Hu H Hr; [reflexivity|].
  simpl in H |- *. destruct (dv c) eqn:Ec.
  - rewrite (Hd c) by (rewrite Ec; reflexivity). exact (IH _ _ _ _ _ Hd Hu H Hr).
  - destruct (Ascii.eqb_spec c "_"%char) as [->|Hc].
    + rewrite Hu. destruct (negb us && Nat.eqb n 0); [discriminate|].
      destruct s as [|c' s']; [discriminate|].
      destruct (is_some (dv c')); [|discriminate]. exact (IH _ _ _ _ _ Hd Hu H Hr).
    + injection H as _ _ <-. exact Hr.
Qed.

Lemma pg_char_space c : pg_space c = true -> pg_char c = true.
Proof. intros H. unfold pg_char. rewrite H. reflexivity. Qed.

Lemma pg_char_hex c : is_some (hex_val c) = true -> pg_char c = true.
Proof. intros H. unfold pg_char. rewrite H, orb_true_r. reflexivity. Qed.

Lemma in_range_weaken c lo hi lo' hi' :
  (lo' <= lo)%Z -> (hi <= hi')%Z -> in_range c lo hi = true -> in_range c lo' hi' = true.
Proof.
  unfold in_range. intros H1 H2 H. apply andb_true_iff in H as [E1 E2].
  apply Z.leb_le in E1, E2. apply andb_true_iff. split; apply Z.leb_le; lia.
Qed.

Lemma pg_char_dv c : in_range c 48 57 = true -> pg_char c = true.
Proof. intros H. apply pg_char_hex. unfold hex_val. rewrite H. reflexivity. Qed.

Lemma digit_val_range c : is_some (digit_val c) = true -> in_range c 48 57 = true.
Proof. unfold digit_val. destruct (in_range c 48 57); [auto | discriminate]. Qed.

Lemma oct_val_range c : is_some (oct_val c) = true -> in_range c 48 57 = true.
Proof.
  unfold oct_val. destruct (in_range c 48 55) eqn:E; [|discriminate].
  intros _. exact (in_range_weaken c 48 55 48 57 ltac:(lia) ltac:(lia) E).
Qed.

Lemma bin_val_range c : is_some (bin_val c) = true -> in_range c 48 57 = true.
Proof.
  unfold bin_val. destruct (in_range c 48 49) eqn:E; [|discriminate].
  intros _. exact (in_range_weaken c 48 49 48 57 ltac:(lia) ltac:(lia) E).
Qed.

Lemma all_chars_rest rest :
  skip_spaces rest = EmptyString -> all_chars pg_char rest = true.
Proof. intros H. apply (all_chars_skip pg_char rest pg_char_space). rewrite H. reflexivity. Qed.

Lemma pg_char_ascii c (l : list ascii) :
  In c l -> existsb (Ascii.eqb c) l = true.
Proof. intros H. apply existsb_exists. exists c. split; [exact H | apply Ascii.eqb_refl]. Qed.

Lemma pg_char_lit c : In c ["+"; "-"; "_"; "x"; "X"; "o"; "O"]%char -> pg_char c = true.
Proof. intros H. unfold pg_char. rewrite (pg_char_ascii _ _ H), !orb_true_r. reflexivity. Qed.

Lemma all_chars_literal s v m rest :
  scan_literal s = Some (v, m, rest) -> skip_spaces rest = EmptyString ->
  all_chars pg_char s = true.
Proof.
  intros H Hr. pose proof (all_chars_rest rest Hr) as R.
  assert (Hu : pg_char "_"%char = true) by reflexivity.
  assert (Dd : forall c, is_some (digit_val c) = true -> pg_char c = true)
    by (intros c Hc; apply pg_char_dv, digit_val_range, Hc).
  assert (Do : forall c, is_some (oct_val c) = true -> pg_char c = true)
    by (intros c Hc; apply pg_char_dv, oct_val_range, Hc).
  assert (Db : forall c, is_some (bin_val c) = true -> pg_char c = true)
    by (intros c Hc; apply pg_char_dv, bin_val_range, Hc).
  unfold scan_literal in H.
  destruct s as [|c0 [|x r]]; try exact (all_chars_scan _ _ _ _ _ _ _ _ _ _ Dd Hu H R).
  destruct (Ascii.eqb_spec c0 "0"%char) as [->|_];
    [|exact (all_chars_scan _ _ _ _ _ _ _ _ _ _ Dd Hu H R)].
  cbn [all_chars]. change (pg_char "0"%char) with true. cbn [andb].
  destruct (Ascii.eqb_spec x "x"%char) as [->|_]; [cbn [orb] in H;
    apply (all_chars_scan _ _ _ _ _ _ _ _ _ _ pg_char_hex Hu H R)|].
  destruct (Ascii.eqb_spec x "X"%char) as [->|_]; [cbn [orb] in H;
    apply (all_chars_scan _ _ _ _ _ _ _ _ _ _ pg_char_hex Hu H R)|].
  destruct (Ascii.eqb_spec x "o"%char) as [->|_]; [cbn [orb] in H;
    apply (all_chars_scan _ _ _ _ _ _ _ _ _ _ Do Hu H R)|].
  destruct (Ascii.eqb_spec x "O"%char) as [->|_]; [cbn [orb] in H;
    apply (all_chars_scan _ _ _ _ _ _ _ _ _ _ Do Hu H R)|].
  destruct (Ascii.eqb_spec x "b"%char) as [->|_]; [cbn [orb] in H;
    apply (all_chars_scan _ _ _ _ _ _ _ _ _ _ Db Hu H R)|].
  destruct (Ascii.eqb_spec x "B"%char) as [->|_]; [cbn [orb] in H;
    apply (all_chars_scan _ _ _ _ _ _ _ _ _ _ Db Hu H R)|].
  cbn [orb] in H.
  pose proof (all_chars_scan _ _ _ _ _ _ _ _ _ _ Dd Hu H R) as A. exact A.
Qed.

Lemma all_chars_sign s neg s2 :
  split_sign s = (neg, s2) -> all_chars pg_char s2 = true -> all_chars pg_char s = true.
Proof.
  destruct s as [|c r]; simpl; [intros _ _; reflexivity|].
  destruct (Ascii.eqb_spec c "-"%char) as [->|_];
    [intros E; injection E as _ <-; intros H; exact H|].
  destruct (Ascii.eqb_spec c "+"%char) as [->|_];
    [intros E; injection E as _ <-; intros H; exact H|].
  intros E; injection E as _ <-. simpl. auto.
Qed.

(** Every character of a text [int4in] accepts is a blank, a sign, a
    hexadecimal digit, [_] or a base letter. *)
Lemma pg_int_chars s z : pg_int s = Some z -> all_chars pg_char s = true.
Proof.
  unfold pg_int. intros H.
  apply (all_chars_skip pg_char s pg_char_space).
  destruct (split_sign (skip_spaces s)) as [neg s2] eqn:Es.
  apply (all_chars_sign _ _ _ Es).
  destruct (scan_literal s2) as [[[v [|m]] rest]|] eqn:Eq; try discriminate.
  destruct (skip_spaces rest) eqn:Er; [|discriminate].
  exact (all_chars_literal _ _ _ _ Eq Er).
Qed.

Lemma all_chars_no_char p c s : all_chars p s = true -> p c = false -> no_char c s = true.
Proof.
  intros H Hc. induction s as [|c' s IH]; [reflexivity|].
  simpl in *. apply andb_true_iff in H as [H1 H2].
  rewrite IH by exact H2. destruct (Ascii.eqb_spec c' c) as [->|]; [congruence | reflexivity].
Qed.

Lemma pg_int_no_nul s z : pg_int s = Some z -> no_char nul s = true.
Proof. intros H. exact (all_chars_no_char pg_char nul s (pg_int_chars s z H) eq_refl). Qed.

(** A statement whose key parses and whose connection holds returns the
    key and leaves the state alone. *)
Lemma key_query_ok lost st s z sess :
  pg_int s = Some z -> lost st = false -> key_query lost st s sess = (inr z, sess).
Proof.
  intros H Hl. unfold key_query. rewrite (pg_int_no_nul s z H).
  unfold bind, db_call. rewrite Hl. unfold ret, key_param, from_option. rewrite H. reflexivity.
Qed.

(** ** Environment scope *)

Lemma same_parent_sym a b : same_parent a b = same_parent b a.
Proof.
  unfold same_parent. destruct (al_parentid a), (al_parentid b); try reflexivity.
  apply Z.eqb_sym.
Qed.

Lemma same_parent_trans a b c :
  same_parent a b = true -> same_parent b c = true -> same_parent a c = true.
Proof.
  unfold same_parent. destruct (al_parentid a), (al_parentid b), (al_parentid c);
    try discriminate; auto.
  rewrite !Z.eqb_eq. congruence.
Qed.

Lemma count_true_zero {A} (f : A -> bool) l :
  count_occ bool_dec (map f l) true = 0 -> forall x, In x l -> f x = false.
Proof.
  intros H x Hx. apply count_occ_not_In in H.
  destruct (f x) eqn:E; [|reflexivity].
  exfalso. apply H. rewrite <- E. now apply in_map.
Qed.

(** A row numbered 1 is a newest row of its partition, and no earlier row of
    the partition is as old as it. *)
Lemma row_number_one all before r :
  row_number all before r = 1 ->
  (forall r', In r' all -> same_parent r' r = true -> (al_created r' <= al_created r)%Z) /\
  (forall r', In r' before -> same_parent r' r = true -> al_created r' <> al_created r).
Proof.
  unfold row_number. intros H. injection H as H.
  apply Nat.eq_add_0 in H as [H1 H2]. split.
  - intros r' Hin Hs. pose proof (count_true_zero _ _ H1 r' Hin) as E. simpl in E.
    rewrite Hs in E. simpl in E. apply Z.ltb_ge in E. exact E.
  - intros r' Hin Hs. pose proof (count_true_zero _ _ H2 r' Hin) as E. simpl in E.
    rewrite Hs in E. simpl in E. apply Z.eqb_neq in E. exact E.
Qed.

Lemma rank_aux_in all before rest x n :
  In (x, n) (rank_aux all before rest) ->
  In x rest /\ exists b2, n = row_number all b2 x /\ incl before b2.
Proof.
  revert before. induction rest as [|r rest IH]; simpl; intros before H; [contradiction|].
  destruct H as [H|H].
  - injection H as <- <-. split; [left; reflexivity|].
    exists before. split; [reflexivity | apply incl_refl].
  - destruct (IH _ H) as [Hin [b2 [Hn Hb]]]. split; [right; exact Hin|].
    exists b2. split; [exact Hn|]. intros y Hy. apply Hb, in_or_app. left; exact Hy.
Qed.

Lemma rank_aux_pairs all before rest :
  incl rest all -> ForallOrdPairs not_both_first (rank_aux all before rest).
Proof.
  revert before. induction rest as [|r rest IH]; intros before Hinc; simpl; constructor.
  - apply Forall_forall. intros [r2 n2] Hin. unfold not_both_first; simpl. intros H1 H2.
    destruct (rank_aux_in _ _ _ _ _ Hin) as [Hr2 [b2 [-> Hb]]].
    destruct (same_parent r r2) eqn:Hs; [exfalso|reflexivity].
    destruct (row_number_one _ _ _ H1) as [M1 _].
    destruct (row_number_one _ _ _ H2) as [M2 T2].
    assert (Hr2a : In r2 all) by (apply Hinc; right; exact Hr2).
    assert (Hra : In r all) by (apply Hinc; left; reflexivity).
    pose proof (M1 r2 Hr2a ltac:(rewrite same_parent_sym; exact Hs)).
    pose proof (M2 r Hra Hs).
    apply (T2 r); [apply Hb, in_or_app; right; left; reflexivity | exact Hs | lia].
  - apply IH. intros y Hy. apply Hinc. right; exact Hy.
Qed.

Lemma ForallOrdPairs_filter {A} (R : A -> A -> Prop) (f : A -> bool) l :
  ForallOrdPairs R l -> ForallOrdPairs R (filter f l).
Proof.
  induction 1 as [|a l Ha Hl IH]; simpl; [constructor|].
  destruct (f a); [|exact IH].
  constructor; [|exact IH].
  apply Forall_forall. intros y Hy. apply filter_In in Hy as [Hy _].
  rewrite Forall_forall in Ha. apply Ha, Hy.
Qed.

Lemma group_length_le_1 (L : list (applist_row * nat)) a :
  ForallOrdPairs not_both_first L ->
  (forall x, In x L -> snd x = 1 /\ same_parent (fst x) a = true) ->
  List.length L <= 1.
Proof.
  intros Hp Hall. destruct L as [|x [|y L]]; simpl; try lia.
  exfalso. inversion Hp as [|x' L' Hx _]; subst.
  inversion Hx as [|y' L'' Hxy _]; subst.
  destruct (Hall x ltac:(left; reflexivity)) as [Nx Sx].
  destruct (Hall y ltac:(right; left; reflexivity)) as [Ny Sy].
  rewrite same_parent_sym in Sy.
  pose proof (Hxy Nx Ny) as E. rewrite (same_parent_trans _ _ _ Sx Sy) in E. discriminate.
Qed.

Lemma live_rows_group all a :
  List.length (filter (fun r => same_parent r a) (live_rows all)) <= 1.
Proof.
  unfold live_rows. rewrite filter_map_comm, length_map.
  apply (group_length_le_1 _ a).
  - apply ForallOrdPairs_filter, ForallOrdPairs_filter, rank_aux_pairs, incl_refl.
  - intros [r n] Hin. apply filter_In in Hin as [Hin Hs].
    apply filter_In in Hin as [_ Hk]. simpl in *.
    apply andb_prop in Hk as [Hk _]. apply Nat.eqb_eq in Hk. split; assumption.
Qed.

Lemma live_rows_spec all r :
  In r (live_rows all) ->
  In r all /\ (0 < al_deploymentid r)%Z /\
  (forall r', In r' all -> same_parent r' r = true -> (al_created r' <= al_created r)%Z).
Proof.
  unfold live_rows. intros H. apply in_map_iff in H as [[r0 n] [<- Hin]].
  apply filter_In in Hin as [Hin Hk]. simpl.
  apply andb_prop in Hk as [Hn Hd]. apply Nat.eqb_eq in Hn. apply Z.ltb_lt in Hd.
  unfold ranked_applist in Hin.
  destruct (rank_aux_in _ _ _ _ _ Hin) as [Hr [b2 [Hb _]]]. subst n.
  split; [exact Hr|]. split; [exact Hd|].
  exact (proj1 (row_number_one _ _ _ (eq_sym Hb))).
Qed.

Lemma env_deployments_spec db env d :
  In d (env_deployments db env) ->
  exists r b, In r (live_rows (dm_applist db)) /\ In b (dm_deployment db) /\
              al_deploymentid r = d /\ dep_deploymentid b = d /\ dep_envid b = env.
Proof.
  unfold env_deployments. intros H. apply nodup_In, in_flat_map in H as [r [Hr Hd]].
  apply in_map_iff in Hd as [b [<- Hb]]. apply filter_In in Hb as [Hb Hk].
  apply andb_prop in Hk as [H1 H2]. apply Z.eqb_eq in H1, H2.
  exists r, b. repeat split; auto.
Qed.

(** Claim C6: for an environment key [e] that parses as [env]: the ranked
    rows kept ([rn = 1], positive deployment key) hold at most one row per
    [parentid] partition, each a most recent row of its partition with a
    positive deployment key; every deployment of the resolved set comes from
    such a row through a [dm_deployment] row of that environment, so it is
    positive; the set has no repeats; and the component list built from it
    has no repeats and holds exactly the components of the deployment-component
    rows whose deployment is in the set. *)
Theorem env_scope_spec (db : database) (c : option string) (e : string) (env : Z)
  (Henv : pg_int e = Some env) :
  (forall a, List.length (filter (fun r => same_parent r a) (live_rows (dm_applist db))) <= 1) /\
  (forall r, In r (live_rows (dm_applist db)) ->
     In r (dm_applist db) /\ (0 < al_deploymentid r)%Z /\
     (forall r', In r' (dm_applist db) -> same_parent r' r = true ->
                 (al_created r' <= al_created r)%Z)) /\
  (forall d, In d (env_deployments db env) ->
     (0 < d)%Z /\
     exists r b, In r (live_rows (dm_applist db)) /\ In b (dm_deployment db) /\
                 al_deploymentid r = d /\ dep_deploymentid b = d /\ dep_envid b = env) /\
  NoDup (env_deployments db env) /\
  (forall lost s, lost EnvScope = false -> exists cl,
     resolve_scope db lost (mk_ids c None (Some e)) s
       = (inr (cl, map snd (env_comp_rows db env)), s) /\
     NoDup cl /\
     (forall x, In x cl <->
        exists cid d, In (cid, d) (dm_deploymentcomps db) /\ In d (env_deployments db env) /\
                      x = py_str_int cid)).
Proof.
  split; [apply live_rows_group|].
  split; [apply live_rows_spec|].
  split.
  { intros d Hd. pose proof (env_deployments_spec db env d Hd) as Hs.
    split; [|exact Hs].
    destruct Hs as [r [b [Hr [_ [<- _]]]]]. apply (live_rows_spec _ _ Hr). }
  split; [apply NoDup_nodup|].
  intros lost s Hl. unfold resolve_scope, bind. cbn [appid envid].
  unfold ret at 1. cbv beta iota.
  rewrite (key_query_ok lost EnvScope e env s Henv Hl). unfold ret.
  eexists. split; [reflexivity|]. split; [apply NoDup_nodup|].
  intros x. unfold py_set_list. rewrite nodup_In, app_nil_l, in_map_iff. split.
  - intros [[cid d] [<- Hin]]. unfold env_comp_rows in Hin.
    apply nodup_In, filter_In in Hin as [Hin Hk].
    apply existsb_exists in Hk as [d' [Hd' Hk]]. apply Z.eqb_eq in Hk. subst d'.
    exists cid, d. auto.
  - intros [cid [d [Hin [Hd ->]]]]. exists (cid, d). split; [reflexivity|].
    unfold env_comp_rows. apply nodup_In, filter_In. split; [exact Hin|].
    apply existsb_exists. exists d. split; [exact Hd | apply Z.eqb_refl].
Qed.

Lemma env_scope_spec_witness :
  pg_int " +7 " = Some 7%Z /\ env_deployments db_env 7 = [11; 20]%Z /\
  NoDup (env_deployments db_env 7).
Proof.
  split; [reflexivity|]. split; [vm_compute; reflexivity|].
  exact (proj1 (proj2 (proj2 (proj2 (env_scope_spec db_env None " +7 " 7 eq_refl))))).
Defined.

(* ================================================================== *)
(** * Further properties of the endpoint *)

(** ** The retry loop in general *)

Lemma retry_loop_stop {A} (run : nat -> exn + A) n j : forall fuel attempt,
  attempt <= j -> j <= n -> n - attempt <= fuel ->
  (forall k, attempt <= k < j -> exists e, run k = inl e /\ is_transient e = true) ->
  stops_retry n j (run j) ->
  retry_loop fuel attempt n run = (run j, repeat retry_sleep_ms (j - attempt)).
Proof.
  induction fuel as [|fuel IH]; intros attempt Ha Hj Hf Hfail Hstop.
  - assert (attempt = j) as <- by lia. rewrite Nat.sub_diag.
    simpl. destruct (run attempt) as [e|a]; [|reflexivity].
    destruct (is_transient e); [|reflexivity].
    destruct (Nat.ltb attempt n) eqn:E; [apply Nat.ltb_lt in E; lia | reflexivity].
  - simpl. destruct (Nat.eq_dec attempt j) as [<-|Hne].
    + rewrite Nat.sub_diag. destruct (run attempt) as [e|a] eqn:Er; [|reflexivity].
      destruct (is_transient e) eqn:Et; [|reflexivity].
      destruct Hstop as [Hn|Hn]; [|cbn in Hn; rewrite Et in Hn; discriminate].
      subst n. rewrite Nat.ltb_irrefl. reflexivity.
    + destruct (Hfail attempt ltac:(lia)) as [e [Er Et]]. rewrite Er, Et.
      assert (Nat.ltb attempt n = true) as -> by (apply Nat.ltb_lt; lia).
      rewrite (IH (S attempt)) by (auto with arith || lia || (intros; apply Hfail; lia)).
      replace (j - attempt) with (S (j - S attempt)) by lia. reflexivity.
Qed.

(** The loop of lines 161-580 with bound [n]: the request's outcome is the
    outcome of the first attempt [j] that succeeds, fails with an error that
    is not a connection error, or is the [n]-th, reached after [j - 1]
    sleeps of 200 ms. *)
Theorem retry_first_stop {A} (run : nat -> exn + A) (n j : nat)
  (Hj : 1 <= j <= n)
  (Hfail : forall k, 1 <= k < j -> exists e, run k = inl e /\ is_transient e = true)
  (Hstop : stops_retry n j (run j)) :
  retry_loop n 1 n run = (run j, repeat 200 (j - 1)).
Proof. apply retry_loop_stop; auto; lia. Qed.

Lemma retry_first_stop_witness :
  retry_loop 3 1 3 (fun k => if Nat.eqb k 1 then inl (OperationalError "reset")
                             else inl (KeyError "key") : exn + nat)
  = (inl (KeyError "key"), [200]).
Proof.
  set (run := fun k => if Nat.eqb k 1 then inl (OperationalError "reset")
                       else inl (KeyError "key") : exn + nat).
  transitivity (run 2, repeat 200 (2 - 1)); [|reflexivity].
  apply (retry_first_stop run 3 2).
  - lia.
  - intros k Hk. assert (k = 1) as -> by lia. eexists; split; reflexivity.
  - right. reflexivity.
Defined.

(** ** The vulnerability query and the merge *)

Lemma nodup_filter {A} (d : forall x y : A, {x = y} + {x <> y}) (f : A -> bool) l :
  nodup d (filter f l) = filter f (nodup d l).
Proof.
  induction l as [|x l IH]; simpl; [reflexivity|].
  destruct (f x) eqn:Fx; simpl.
  - destruct (in_dec d x (filter f l)) as [H|H];
      destruct (in_dec d x l) as [H'|H'].
    + exact IH.
    + apply filter_In in H as [H _]. contradiction.
    + exfalso. apply H, filter_In. auto.
    + simpl. rewrite Fx, IH. reflexivity.
  - destruct (in_dec d x l); [exact IH|]. simpl. rewrite Fx. exact IH.
Qed.

Lemma filter_filter_and {A} (f g : A -> bool) l :
  filter g (filter f l) = filter (fun x => f x && g x) l.
Proof.
  induction l as [|x l IH]; simpl; [reflexivity|].
  destruct (f x); simpl; [destruct (g x); simpl|]; rewrite IH; reflexivity.
Qed.

Lemma merge_left_filter pkgs (f : vuln_row -> bool) vulns :
  (forall p v, In p pkgs -> same_key p v = true -> f v = true) ->
  merge_left pkgs (filter f vulns) = merge_left pkgs vulns.
Proof.
  intros H. unfold merge_left. induction pkgs as [|p ps IH]; cbn [flat_map]; [reflexivity|].
  rewrite IH by (intros; eapply H; [right|]; eauto).
  rewrite filter_filter_and.
  replace (filter (fun x => f x && same_key p x) vulns) with (filter (same_key p) vulns);
    [reflexivity|].
  apply filter_ext_in. intros v _. destruct (same_key p v) eqn:E.
  - rewrite (H p v (or_introl eq_refl) E). reflexivity.
  - rewrite andb_false_r. reflexivity.
Qed.

(** The candidate query (lines 384-396) selects vulnerabilities by
    [packagename@packageversion] or by purl; the merge (line 398) keeps only
    those with the package's name and version.  So neither condition changes
    the result: it is the left merge of the packages against all staged and
    persisted vulnerabilities, duplicates removed. *)
Theorem correlate_by_key_only pkgs staged persisted :
  correlate pkgs staged persisted
  = merge_left pkgs (nodup vuln_row_eq_dec (staged ++ persisted)).
Proof.
  destruct pkgs as [|p0 ps]; [reflexivity|].
  unfold correlate, candidate_vulns, sql_union. rewrite <- filter_app, nodup_filter.
  apply merge_left_filter. intros p v Hp Hk.
  unfold same_key in Hk. apply andb_prop in Hk as [E1 E2].
  apply String.eqb_eq in E1, E2.
  unfold vuln_selected. apply orb_true_intro. left.
  apply str_in_iff. unfold pkglist. rewrite <- E1, <- E2.
  apply (in_map (fun p => packagename p ++ "@" ++ packageversion p)). exact Hp.
Qed.

(** ** Application scope *)

Lemma app_comp_rows_in db k cid :
  In cid (app_comp_rows db k) <->
  In (k, cid) (dm_applicationcomponent db) /\
  exists comp, In comp (dm_component db) /\ c_id comp = cid /\ c_status comp = "N".
Proof.
  unfold app_comp_rows. rewrite nodup_In, in_flat_map. split.
  - intros [[ap c] [Hin Hc]]. destruct (Z.eqb ap k) eqn:E; [|contradiction].
    apply Z.eqb_eq in E. subst ap.
    apply in_map_iff in Hc as [comp [<- Hcomp]]. apply filter_In in Hcomp as [Hcomp Hk].
    apply andb_prop in Hk as [H1 H2]. apply Z.eqb_eq in H1. apply String.eqb_eq in H2.
    split; [exact Hin|]. exists comp. auto.
  - intros [Hin [comp [Hc [Hid Hst]]]]. exists (k, cid). split; [exact Hin|].
    rewrite Z.eqb_refl. apply in_map_iff. exists comp. split; [reflexivity|].
    apply filter_In. split; [exact Hc|]. rewrite Hid, Z.eqb_refl, Hst. reflexivity.
Qed.

(** Lines 196-204 and 252: for an application key [a] that parses as [k]
    (and no environment), when the connection holds for its query, scope
    resolution runs without error and leaves the state alone; its component
    list has no repeats and holds exactly the
    keys, as text, of the components attached to application [k] whose
    status is 'N'; the deployment list is empty. *)
Theorem app_scope_spec db lost (c : option string) (a : string) (k : Z)
  (Hk : pg_int a = Some k) (Hl : lost AppScope = false) s :
  exists cl, resolve_scope db lost (mk_ids c (Some a) None) s = (inr (cl, []), s) /\
    NoDup cl /\
    (forall x, In x cl <->
       exists cid comp, In (k, cid) (dm_applicationcomponent db) /\
         In comp (dm_component db) /\ c_id comp = cid /\ c_status comp = "N" /\
         x = py_str_int cid).
Proof.
  unfold resolve_scope, bind. cbn [appid envid].
  rewrite (key_query_ok lost AppScope a k s Hk Hl). unfold ret.
  rewrite app_nil_r. eexists. split; [reflexivity|]. split; [apply NoDup_nodup|].
  intros x. unfold py_set_list. rewrite nodup_In, in_map_iff. split.
  - intros [cid [<- Hin]]. apply app_comp_rows_in in Hin as [H1 [comp H2]].
    exists cid, comp. intuition.
  - intros [cid [comp [H1 [H2 [H3 [H4 ->]]]]]]. exists cid. split; [reflexivity|].
    apply app_comp_rows_in. split; [exact H1|]. exists comp. auto.
Qed.

Lemma app_scope_spec_witness :
  pg_int "0x_9" = Some 9%Z /\ no_lost AppScope = false /\
  exists cl, resolve_scope db_app no_lost (mk_ids None (Some "0x_9") None) sess0
             = (inr (cl, []), sess0) /\ NoDup cl.
Proof.
  split; [reflexivity|]. split; [reflexivity|].
  destruct (app_scope_spec db_app no_lost None "0x_9" 9 eq_refl eq_refl sess0) as [cl [E [N _]]].
  exists cl. split; assumption.
Defined.

(** ** Staging the dependency service's answer *)

Section MapM.
Context {A B : Type} (f : A -> M B).
Hypothesis f_pure : forall x s, snd (f x s) = s.

Lemma mapM_pure l s : snd (mapM f l s) = s.
Proof.
  induction l as [|x l IH]; [reflexivity|]. simpl. unfold bind.
  pose proof (f_pure x s) as Hx. destruct (f x s) as [[e|y] s1]; simpl in Hx; subst s1;
    [reflexivity|].
  destruct (mapM f l s) as [[e|ys] s2] eqn:E; simpl in IH; subst s2; reflexivity.
Qed.

Lemma mapM_ok (P : A -> B -> Prop) l s ys :
  (forall x y, f x s = (inr y, s) -> P x y) ->
  fst (mapM f l s) = inr ys -> Forall2 P l ys.
Proof.
  intros HP. revert ys. induction l as [|x l IH]; intros ys H.
  - simpl in H. injection H as <-. constructor.
  - simpl in H. unfold bind in H.
    pose proof (f_pure x s) as Hx. destruct (f x s) as [[e|y] s1] eqn:Ef; simpl in Hx;
      subst s1; [discriminate|].
    pose proof (mapM_pure l s) as Hl.
    destruct (mapM f l s) as [[e|ys'] s2] eqn:E; simpl in Hl; subst s2; [discriminate|].
    simpl in H. injection H as <-. constructor; [apply HP, Ef | apply IH; reflexivity].
Qed.

Lemma mapM_fail (Q : exn -> Prop) l s e :
  (forall x e', fst (f x s) = inl e' -> Q e') ->
  fst (mapM f l s) = inl e -> Q e.
Proof.
  intros HQ. induction l as [|x l IH]; simpl; [discriminate|]. unfold bind.
  pose proof (f_pure x s) as Hx. destruct (f x s) as [[e'|y] s1] eqn:Ef; simpl in Hx;
    subst s1; simpl.
  - intros H. injection H as <-. apply (HQ x). rewrite Ef. reflexivity.
  - pose proof (mapM_pure l s) as Hl.
    destruct (mapM f l s) as [[e'|ys'] s2] eqn:E; simpl in Hl; subst s2; simpl;
      [intros H; injection H as <-; apply IH; reflexivity | discriminate].
Qed.

Lemma mapM_some_fail l s x e :
  In x l -> fst (f x s) = inl e -> exists e', fst (mapM f l s) = inl e'.
Proof.
  induction l as [|y l IH]; intros Hin Hx; [contradiction|]. simpl. unfold bind.
  pose proof (f_pure y s) as Hy. destruct (f y s) as [[e'|z] s1] eqn:Ef; simpl in Hy;
    subst s1; [eexists; reflexivity|].
  destruct Hin as [<-|Hin]; [rewrite Ef in Hx; discriminate|].
  destruct (IH Hin Hx) as [e' He'].
  pose proof (mapM_pure l s) as Hl.
  destruct (mapM f l s) as [[e''|ys'] s2]; simpl in Hl, He'; subst s2;
    [injection He' as <-; eexists; reflexivity | discriminate].
Qed.
End MapM.

Ltac getitem_cases :=
  repeat match goal with
         | |- context [match find ?p ?r with _ => _ end] =>
             destruct (find p r) as [[? ?]|]; simpl
         end.

Lemma getitem_pure r k s : snd (getitem r k s) = s.
Proof. unfold getitem. getitem_cases; reflexivity. Qed.

Lemma license_tuple_pure r s : snd (license_tuple r s) = s.
Proof. unfold license_tuple, bind, getitem. getitem_cases; reflexivity. Qed.

Lemma license_tuple_ok r s y :
  license_tuple r s = (inr y, s) ->
  exists k pn pv nm u sm pt, y = [k; pn; pv; nm; u; sm; JStr EmptyString; pt].
Proof.
  unfold license_tuple, bind, getitem. getitem_cases; intros H; try discriminate.
  injection H as <-. repeat eexists.
Qed.

Lemma license_tuple_fail r s e : fst (license_tuple r s) = inl e -> exists k, e = KeyError k.
Proof.
  unfold license_tuple, bind, getitem. getitem_cases; intros H; try discriminate;
    injection H as <-; eexists; reflexivity.
Qed.

Lemma pure_ret {A} (a : A) : pure_m (ret a).
Proof. intros s; reflexivity. Qed.

Lemma pure_raise {A} e : pure_m (@raise A e).
Proof. intros s; reflexivity. Qed.

Lemma pure_bind {A B} (m : M A) (k : A -> M B) :
  pure_m m -> (forall a, pure_m (k a)) -> pure_m (bind m k).
Proof.
  intros Hm Hk s. unfold bind. pose proof (Hm s) as H.
  destruct (m s) as [[e|a] s1]; simpl in *; subst s1; [reflexivity | apply Hk].
Qed.

Lemma raises_ret {A} Q (a : A) : raises_only Q (ret a).
Proof. intros s e H; discriminate. Qed.

Lemma raises_raise {A} (Q : exn -> Prop) e : Q e -> raises_only Q (@raise A e).
Proof. intros HQ s e' H. injection H as <-. exact HQ. Qed.

Lemma raises_bind {A B} Q (m : M A) (k : A -> M B) :
  raises_only Q m -> (forall a, raises_only Q (k a)) -> raises_only Q (bind m k).
Proof.
  intros Hm Hk s e. unfold bind. pose proof (Hm s) as H.
  destruct (m s) as [[e'|a] s1]; simpl in *; [intros E; injection E as <-; auto | apply Hk].
Qed.

Lemma ensures_ret {A} (P : A -> Prop) a : P a -> ensures (ret a) P.
Proof. intros HP s a' s' H. injection H as <- _. exact HP. Qed.

Lemma ensures_raise {A} (P : A -> Prop) e : ensures (raise e) P.
Proof. intros s a s' H. discriminate. Qed.

Lemma ensures_bind {A B} (m : M A) (k : A -> M B) (P : B -> Prop) :
  (forall a, ensures (k a) P) -> ensures (bind m k) P.
Proof.
  intros Hk s b s'. unfold bind. destruct (m s) as [[e|a] s1]; [discriminate | apply Hk].
Qed.

Ltac monad_tac :=
  repeat match goal with
         | |- pure_m (bind _ _) => apply pure_bind; [|intro]
         | |- raises_only _ (bind _ _) => apply raises_bind; [|intro]
         | |- ensures (bind _ _) _ => apply ensures_bind; intro
         | |- pure_m (match ?x with _ => _ end) => destruct x
         | |- raises_only _ (match ?x with _ => _ end) => destruct x
         | |- ensures (match ?x with _ => _ end) _ => destruct x
         | |- pure_m (ret _) => apply pure_ret
         | |- pure_m (raise _) => apply pure_raise
         | |- raises_only _ (ret _) => apply raises_ret
         | |- raises_only _ (raise _) => apply raises_raise
         | |- ensures (ret _) _ => apply ensures_ret
         | |- ensures (raise _) _ => apply ensures_raise
         end.

Lemma stage_row_of_pure t s : snd (stage_row_of t s) = s.
Proof.
  revert s. change (pure_m (stage_row_of t)).
  unfold stage_row_of, col_int_notnull, col_text_notnull, key_param, from_option.
  monad_tac.
Qed.

Lemma stage_row_of_fail t s e : fst (stage_row_of t s) = inl e -> exists m, e = DatabaseError m.
Proof.
  revert s e. change (raises_only (fun e => exists m, e = DatabaseError m) (stage_row_of t)).
  unfold stage_row_of, col_int_notnull, col_text_notnull, key_param, from_option.
  monad_tac; eexists; reflexivity.
Qed.

Lemma stage_row_of_purl k pn pv nm u sm pt s row :
  stage_row_of [k; pn; pv; nm; u; sm; JStr EmptyString; pt] s = (inr row, s) ->
  s_purl row = Some EmptyString.
Proof.
  revert s row. intros s row H.
  assert (E : ensures (stage_row_of [k; pn; pv; nm; u; sm; JStr EmptyString; pt])
                      (fun row => s_purl row = Some EmptyString)).
  { unfold stage_row_of. monad_tac. reflexivity. }
  exact (E s row s H).
Qed.

Lemma Forall2_in_right {A B} (R : A -> B -> Prop) l1 l2 y :
  Forall2 R l1 l2 -> In y l2 -> exists x, In x l1 /\ R x y.
Proof.
  induction 1 as [|x y' l1 l2 Hxy _ IH]; intros Hin; [contradiction|].
  destruct Hin as [<-|Hin]; [exists x; split; [left|]; auto|].
  destruct (IH Hin) as [x' [Hx' Hr]]. exists x'. split; [right|]; auto.
Qed.

Lemma insert_dm_sbom_spec lost txn vl s :
  let '(r, s') := insert_dm_sbom lost txn vl s in
  (forall e, r = inl e -> s' = s /\ requests_handler e = None) /\
  (r = inr tt -> exists rows, s' = mk_session (dm_sbom s ++ rows) (dm_vulns s) (log s) /\
                              Forall2 (fun y row => stage_row_of y s = (inr row, s)) vl rows).
Proof.
  destruct vl as [|y vl'].
  - assert (E : forall r s', (r, s') = insert_dm_sbom lost txn [] s -> r = inr tt /\ s' = s \/
                  r = inl (conn_lost InsertSbom) /\ s' = s).
    { intros r s' H. unfold insert_dm_sbom, db_call in H.
      destruct txn; [destruct (lost InsertSbom)|]; injection H as -> ->; auto. }
    destruct (insert_dm_sbom lost txn [] s) as [r s'] eqn:Ei.
    destruct (E r s' eq_refl) as [[-> ->]|[-> ->]].
    + split; [discriminate|]. intros _. exists []. split; [|constructor].
      destruct s; simpl; rewrite app_nil_r; reflexivity.
    + split; [|discriminate]. intros e He. injection He as <-. split; reflexivity.
  - unfold insert_dm_sbom, bind at 1, db_call. destruct (lost InsertSbom).
    + simpl. split; [|discriminate]. intros e He. injection He as <-. split; reflexivity.
    + unfold ret. cbv beta iota. unfold bind.
      pose proof (mapM_pure _ stage_row_of_pure (y :: vl') s) as P.
      destruct (mapM stage_row_of (y :: vl') s) as [[e|rows] s2] eqn:E2; simpl in P; subst s2.
      * assert (Hd : exists m, e = DatabaseError m).
        { apply (mapM_fail stage_row_of stage_row_of_pure (fun e => exists m, e = DatabaseError m)
                   (y :: vl') s);
            [intros x e' H; exact (stage_row_of_fail x s e' H) | rewrite E2; reflexivity]. }
        destruct Hd as [m ->]. split; [|discriminate].
        intros e He. injection He as <-. split; reflexivity.
      * split; [discriminate|]. intros _. exists rows. split; [reflexivity|].
        apply (mapM_ok stage_row_of stage_row_of_pure
                 (fun y row => stage_row_of y s = (inr row, s)) (y :: vl') s);
          [intros x r H; exact H | rewrite E2; reflexivity].
Qed.

(** Lines 253-278: whatever the dependency service answers and whatever
    happens to the database connection, the license fetch never touches the
    staged vulnerabilities and only appends rows to the staged packages,
    each with an empty purl (the code writes [""] for it); when it raises,
    it changes nothing; and on a success answer with a [data] list that it
    stages, it adds one row per record. *)
Theorem fetch_licenses_stage cfg http lost i cl s :
  let '(r, s') := fetch_licenses cfg http lost i cl s in
  dm_vulns s' = dm_vulns s /\
  (exists added, dm_sbom s' = (dm_sbom s ++ added)%list /\
     Forall (fun row => s_purl row = Some EmptyString) added /\
     (forall code rs, http (license_url cfg i cl) = Response code (Some rs) ->
        (code < 400 \/ 600 <= code)%Z -> r = inr tt -> List.length added = List.length rs)) /\
  (forall e, r = inl e -> s' = s).
Proof.
  unfold fetch_licenses, try_except, bind at 1, http_get.
  destruct (http (license_url cfg i cl)) as [msg|code [rs|]] eqn:Eh.
  - simpl. split; [reflexivity|]. split; [|discriminate].
    exists []. rewrite app_nil_r. split; [reflexivity|]. split; [constructor|].
    intros; discriminate.
  - destruct ((400 <=? code)%Z && (code <? 600)%Z) eqn:Ec.
    { simpl. split; [reflexivity|]. split; [|discriminate].
      exists []. rewrite app_nil_r. split; [reflexivity|]. split; [constructor|].
      intros code' rs' E Hc _. try rewrite Eh in E; injection E as <- <-.
      apply andb_prop in Ec as [E1 E2]. lia. }
    unfold ret. cbv beta iota. unfold bind at 1.
    pose proof (mapM_pure _ license_tuple_pure rs s) as P1.
    destruct (mapM license_tuple rs s) as [[e|vl] s1] eqn:E1; simpl in P1; subst s1.
    + assert (Hk : exists k, e = KeyError k).
      { apply (mapM_fail license_tuple license_tuple_pure (fun e => exists k, e = KeyError k) rs s);
          [intros x e' H; exact (license_tuple_fail x s e' H) | rewrite E1; reflexivity]. }
      destruct Hk as [k ->]. simpl. split; [reflexivity|]. split; [|reflexivity].
      exists []. rewrite app_nil_r. split; [reflexivity|]. split; [constructor|].
      intros; discriminate.
    + unfold bind at 1.
      pose proof (insert_dm_sbom_spec lost (is_some (appid i) || is_some (envid i)) vl s) as Hi.
      destruct (insert_dm_sbom lost (is_some (appid i) || is_some (envid i)) vl s)
        as [[e|[]] s2].
      * destruct Hi as [Hi _]. destruct (Hi e eq_refl) as [-> Hn]. rewrite Hn.
        split; [reflexivity|]. split; [|reflexivity].
        exists []. rewrite app_nil_r. split; [reflexivity|]. split; [constructor|].
        intros; discriminate.
      * destruct Hi as [_ Hi]. destruct (Hi eq_refl) as [rows [-> F2]].
        simpl. split; [reflexivity|]. split; [|discriminate].
        exists rows. split; [reflexivity|].
        assert (F1 : Forall2 (fun r y => exists k pn pv nm u sm pt,
                                y = [k; pn; pv; nm; u; sm; JStr EmptyString; pt]) rs vl).
        { apply (mapM_ok license_tuple license_tuple_pure (fun r y => exists k pn pv nm u sm pt,
                                y = [k; pn; pv; nm; u; sm; JStr EmptyString; pt]) rs s);
            [intros x y H; exact (license_tuple_ok x s y H) | rewrite E1; reflexivity]. }
        split.
        -- apply Forall_forall. intros row Hrow.
           destruct (Forall2_in_right _ _ _ _ F2 Hrow) as [y [Hy Hyr]].
           destruct (Forall2_in_right _ _ _ _ F1 Hy) as [r0 [_ [k [pn [pv [nm [u [sm [pt ->]]]]]]]]].
           exact (stage_row_of_purl _ _ _ _ _ _ _ _ _ Hyr).
        -- intros code' rs' E _ _. try rewrite Eh in E; injection E as <- <-.
           rewrite <- (Forall2_length F2). exact (eq_sym (Forall2_length F1)).
  - destruct ((400 <=? code)%Z && (code <? 600)%Z); simpl;
      (split; [reflexivity|]; split; [|discriminate]);
      exists []; rewrite app_nil_r; (split; [reflexivity|]); (split; [constructor|]);
      intros code' rs' E; try rewrite Eh in E; discriminate.
Qed.

Lemma license_tuple_missing r k s :
  In k license_fields -> find (fun kv => String.eqb (fst kv) k) r = None ->
  exists e, fst (license_tuple r s) = inl e.
Proof.
  intros Hk H. unfold license_tuple, bind, getitem.
  unfold license_fields in Hk.
  repeat destruct Hk as [<-|Hk]; try contradiction; rewrite H;
    getitem_cases; eexists; reflexivity.
Qed.

(** Lines 262-274: a success answer whose [data] list has a record without
    one of the seven fields the comprehension reads makes the license fetch
    raise [KeyError], which its [except] clauses do not catch: nothing is
    staged and the error leaves the enrichment step. *)
Theorem license_missing_field cfg http lost i cl s code rs r k
  (Hh : http (license_url cfg i cl) = Response code (Some rs))
  (Hc : (code < 400 \/ 600 <= code)%Z)
  (Hr : In r rs) (Hk : In k license_fields)
  (Hmiss : find (fun kv => String.eqb (fst kv) k) r = None) :
  exists k', fetch_licenses cfg http lost i cl s = (inl (KeyError k'), s).
Proof.
  destruct (license_tuple_missing r k s Hk Hmiss) as [e He].
  destruct (mapM_some_fail license_tuple license_tuple_pure rs s r e Hr He) as [e' E'].
  destruct (mapM_fail license_tuple license_tuple_pure (fun e => exists k, e = KeyError k) rs s e'
              (fun x e0 H => license_tuple_fail x s e0 H) E') as [k' ->].
  exists k'.
  unfold fetch_licenses, try_except, bind at 1, http_get. rewrite Hh.
  assert (((400 <=? code)%Z && (code <? 600)%Z) = false) as -> by
    (destruct Hc; [rewrite (proj2 (Z.leb_gt 400 code)) | rewrite (proj2 (Z.ltb_ge code 600))];
     auto with bool; lia).
  unfold ret. cbv beta iota. unfold bind at 1.
  pose proof (mapM_pure _ license_tuple_pure rs s) as P.
  destruct (mapM license_tuple rs s) as [[e1|vl] s1]; simpl in E', P; subst s1;
    [injection E' as E; subst e1; reflexivity | discriminate].
Qed.

Lemma license_missing_field_witness :
  exists k', fetch_licenses cfg_a http_bad no_lost ids_a [] sess0 = (inl (KeyError k'), sess0).
Proof.
  apply (license_missing_field cfg_a http_bad no_lost ids_a [] sess0 200
           [[("key", JInt 42); ("packagename", JStr "left-pad")]]
           [("key", JInt 42); ("packagename", JStr "left-pad")] "packageversion").
  - reflexivity.
  - lia.
  - left; reflexivity.
  - simpl; tauto.
  - reflexivity.
Defined.

(** ** Requests that always fail *)

Lemma raises_print Q msg : raises_only Q (print msg).
Proof. intros s e H; discriminate. Qed.

Lemma raises_get_stage Q : raises_only Q get_stage.
Proof. intros s e H; discriminate. Qed.

Lemma raises_get_staged_vulns Q : raises_only Q get_staged_vulns.
Proof. intros s e H; discriminate. Qed.

Lemma raises_try_except {A} Q (m : M A) handler :
  raises_only Q m -> (forall e h, handler e = Some h -> raises_only Q h) ->
  raises_only Q (try_except m handler).
Proof.
  intros Hm Hh s e. unfold try_except. pose proof (Hm s) as H.
  destruct (m s) as [[e'|a] s1]; simpl in *; [|discriminate].
  destruct (handler e') as [h|] eqn:E; [apply (Hh e' h E) | intros X; injection X as <-; auto].
Qed.

Lemma raises_mapM {A B} Q (f : A -> M B) l :
  (forall x, raises_only Q (f x)) -> raises_only Q (mapM f l).
Proof. intros Hf. induction l as [|x l IH]; simpl; monad_tac; auto. Qed.

Lemma raises_requests_handler Q e h :
  requests_handler e = Some h -> raises_only Q h.
Proof. destruct e; simpl; intros H; try discriminate; injection H as <-; apply raises_print. Qed.

Lemma raises_db_call Q lost st :
  (lost st = true -> Q (conn_lost st)) -> raises_only Q (db_call lost st).
Proof.
  intros H. unfold db_call. destruct (lost st); [apply raises_raise; auto | apply raises_ret].
Qed.

Lemma raises_key_query Q lost st s :
  (forall e, plain_error e -> Q e) -> (lost st = true -> Q (conn_lost st)) ->
  raises_only Q (key_query lost st s).
Proof.
  intros HQ Hl. unfold key_query, key_param, from_option.
  destruct (no_char nul s); [|apply raises_raise, HQ; exact I].
  apply raises_bind; [apply raises_db_call, Hl | intros _].
  destruct (pg_int s); [apply raises_ret | apply raises_raise, HQ; exact I].
Qed.

Ltac raises_tac :=
  repeat (monad_tac;
          match goal with
          | |- raises_only _ (try_except _ _) =>
              apply raises_try_except; [|intros ? ? ?; eapply raises_requests_handler; eassumption]
          | |- raises_only _ (mapM _ _) => apply raises_mapM; intro
          | |- raises_only _ (print _) => apply raises_print
          | |- raises_only _ get_stage => apply raises_get_stage
          | |- raises_only _ get_staged_vulns => apply raises_get_staged_vulns
          | |- raises_only _ (db_call _ _) => apply raises_db_call; intro
          | |- raises_only _ (key_query _ _ _) => apply raises_key_query; [|intro]
          | |- raises_only _ (fun _ => (inr _, _)) => intros ? ? ?; discriminate
          | _ => idtac
          end).

(** An attempt raises only ordinary errors and the connection errors of the
    statements whose connection is lost; never an [HTTPException]. *)
Lemma attempt_body_errors (Q : exn -> Prop) cfg db http lost i :
  (forall e, plain_error e -> Q e) -> (forall st, lost st = true -> Q (conn_lost st)) ->
  raises_only Q (attempt_body cfg db http lost i).
Proof.
  intros HQ Hl.
  unfold attempt_body, resolve_scope, enrich, fetch_licenses, fetch_vulns, report_stage,
    read_sql_pkgs, lookup_objname, component_summaries, http_get, insert_dm_sbom,
    insert_dm_vulns, license_tuple, vuln_tuple, stage_row_of, vuln_row_of, getitem,
    col_int_notnull, col_text_notnull, key_param, from_option, missing_param.
  raises_tac; first [apply Hl; assumption | exact HQ | apply HQ; exact I].
Qed.

Lemma attempt_body_not_http cfg db http lost i :
  raises_only not_http (attempt_body cfg db http lost i).
Proof.
  apply attempt_body_errors; [intros [] H; simpl in *; tauto | intros [] _; exact I].
Qed.

Lemma raises_plain_resolve db lost i : raises_only plain_error (resolve_scope db lost i).
Proof. unfold resolve_scope. raises_tac; first [exact I | intros e H; exact H]. Qed.

Lemma raises_plain_enrich cfg http lost i cl : raises_only plain_error (enrich cfg http lost i cl).
Proof.
  unfold enrich, fetch_licenses, fetch_vulns, http_get, insert_dm_sbom, insert_dm_vulns,
    license_tuple, vuln_tuple, stage_row_of, vuln_row_of, getitem, col_int_notnull,
    col_text_notnull, key_param, from_option.
  raises_tac; exact I.
Qed.

Lemma raises_bind_ens {A B} Q (P : A -> Prop) (m : M A) (k : A -> M B) :
  raises_only Q m -> ensures m P -> (forall a, P a -> raises_only Q (k a)) ->
  raises_only Q (bind m k).
Proof.
  intros Hm He Hk s e. unfold bind. pose proof (Hm s) as H. pose proof (He s) as H'.
  destruct (m s) as [[e'|a] s1]; simpl in *; [intros E; injection E as <-; auto|].
  apply (Hk a (H' a s1 eq_refl)).
Qed.

Lemma fails_bind {A B} (m : M A) (k : A -> M B) :
  (forall a, fails (k a)) -> fails (bind m k).
Proof.
  intros Hk s. unfold bind. destruct (m s) as [[e|a] s1]; [eexists; reflexivity | apply Hk].
Qed.

Lemma fails_bind_ens {A B} (P : A -> Prop) (m : M A) (k : A -> M B) :
  ensures m P -> (forall a, P a -> fails (k a)) -> fails (bind m k).
Proof.
  intros He Hk s. unfold bind. pose proof (He s) as H.
  destruct (m s) as [[e|a] s1]; [eexists; reflexivity | apply (Hk a (H a s1 eq_refl))].
Qed.

Lemma fails_bind_l {A B} (m : M A) (k : A -> M B) : fails m -> fails (bind m k).
Proof.
  intros Hm s. unfold bind. destruct (Hm s) as [e He].
  destruct (m s) as [[e'|a] s1]; simpl in He; [eexists; reflexivity | discriminate].
Qed.

Lemma raises_bind_l {A B} Q (m : M A) (k : A -> M B) :
  raises_only Q m -> fails m -> raises_only Q (bind m k).
Proof.
  intros Hm Hf s e. unfold bind. pose proof (Hm s) as H. destruct (Hf s) as [e' He'].
  destruct (m s) as [[e1|a] s1]; simpl in *; [intros E; injection E as <-; auto | discriminate].
Qed.

Lemma fails_raise {A} e : fails (@raise A e).
Proof. intros s. eexists; reflexivity. Qed.

Lemma ensures_true {A} (m : M A) : ensures m (fun _ => True).
Proof. intros s a s' _. exact I. Qed.

(** The shape of an attempt: when the report stage fails for every scope
    the resolution can produce, the attempt fails, and it raises only
    ordinary errors when that stage does. *)
Lemma attempt_body_fails cfg db http lost i (P : list string * list Z -> Prop) :
  ensures (resolve_scope db lost i) P ->
  (forall sc, P sc -> fails (report_stage db lost i (snd sc))) ->
  fails (attempt_body cfg db http lost i).
Proof.
  intros He Hf. unfold attempt_body. apply fails_bind. intros _.
  apply (fails_bind_ens P); [exact He|]. intros sc Hsc. apply fails_bind. intros _.
  exact (Hf sc Hsc).
Qed.

Lemma attempt_body_plain cfg db http lost i (P : list string * list Z -> Prop) :
  ensures (resolve_scope db lost i) P ->
  (forall sc, P sc -> raises_only plain_error (report_stage db lost i (snd sc))) ->
  raises_only plain_error (attempt_body cfg db http lost i).
Proof.
  intros He Hr. unfold attempt_body.
  apply raises_bind; [apply raises_db_call; intros _; exact I | intros _].
  apply (raises_bind_ens _ P); [apply raises_plain_resolve | exact He|]. intros sc Hsc.
  apply raises_bind; [apply raises_plain_enrich | intros _]. exact (Hr sc Hsc).
Qed.

Lemma retry_loop_first_ok {A} fuel n (run : nat -> exn + A) a :
  run 1 = inr a -> retry_loop fuel 1 n run = (inr a, []).
Proof. intros H. destruct fuel; simpl; rewrite H; reflexivity. Qed.

(** When every attempt fails, the request is answered with a 500 error. *)
Lemma export_fails n cfg db lost http sess raw :
  (forall k, fails (attempt_body cfg db http (lost k) (normalize_ids raw))) ->
  exists msg, fst (export_sbom_trace n cfg db lost http sess raw) = ErrorResponse 500 msg.
Proof.
  intros Hf. unfold export_sbom_trace.
  destruct (retry_loop_all_fail not_http (run_attempt cfg db lost http sess (normalize_ids raw))
              n n 1) as [e [E He]].
  - intros k. unfold run_attempt. destruct (lost k Connect).
    + eexists; split; [reflexivity | exact I].
    + destruct (Hf k sess) as [e He]. exists e. split; [exact He|].
      exact (attempt_body_not_http cfg db http (lost k) (normalize_ids raw) sess e He).
  - destruct (retry_loop n 1 n _) as [r sl]. simpl in E. subst r.
    destruct e; try contradiction; eexists; reflexivity.
Qed.

(** When the first attempt connects and raises no connection error, the
    loop stops after it, without a sleep. *)
Lemma export_no_sleep n cfg db lost http sess raw :
  lost 1 Connect = false ->
  raises_only plain_error (attempt_body cfg db http (lost 1) (normalize_ids raw)) ->
  snd (export_sbom_trace n cfg db lost http sess raw) = [].
Proof.
  intros Hc Hp. unfold export_sbom_trace.
  destruct (fst (attempt_body cfg db http (lost 1) (normalize_ids raw) sess)) as [e|a] eqn:E.
  - rewrite (retry_loop_first_stop n n _ e); [reflexivity | |].
    + unfold run_attempt. rewrite Hc. exact E.
    + pose proof (Hp sess e E) as P. destruct e; simpl in *; tauto.
  - rewrite (retry_loop_first_ok n n _ a); [reflexivity|].
    unfold run_attempt. rewrite Hc. exact E.
Qed.

Lemma report_stage_deploy_error db lost i d s :
  is_some (envid i) = true -> is_some (compid i) || is_some (appid i) = true ->
  report_stage db lost i d s = (inl (missing_param "objid"), s).
Proof.
  intros He Ho. unfold report_stage, select_stmt.
  destruct (compid i), (appid i), (envid i); simpl in He, Ho; try discriminate; reflexivity.
Qed.

Lemma normalize_is_some raw :
  is_some (compid (normalize_ids raw)) = is_some (compid raw) /\
  is_some (appid (normalize_ids raw)) = is_some (appid raw) /\
  is_some (envid (normalize_ids raw)) = is_some (envid raw).
Proof.
  destruct raw as [[c|] [a|] [e|]]; simpl;
    unfold normalize_compid, normalize_appid, normalize_envid;
    repeat match goal with |- context [if ?b then _ else _] => destruct b end;
    repeat split.
Qed.

(** Lines 307-382: an environment key given together with a component or an
    application key makes the package query the component's or the
    application's one, whose [:objid] parameter is not bound (only
    [deploy] is), so every such request is answered with a 500 error; as
    SQLAlchemy refuses the statement before sending it, without a retry
    once [engine.connect()] of the first attempt succeeds. *)
Theorem env_with_other_key_fails n cfg db lost http sess raw
  (He : envid raw <> None) (Ho : compid raw <> None \/ appid raw <> None) :
  (exists msg, fst (export_sbom_trace n cfg db lost http sess raw) = ErrorResponse 500 msg) /\
  (lost 1 Connect = false -> snd (export_sbom_trace n cfg db lost http sess raw) = []).
Proof.
  destruct (normalize_is_some raw) as [Nc [Na Ne]].
  assert (He' : is_some (envid (normalize_ids raw)) = true)
    by (rewrite Ne; destruct (envid raw); [reflexivity | contradiction]).
  assert (Ho' : is_some (compid (normalize_ids raw)) || is_some (appid (normalize_ids raw)) = true).
  { rewrite Nc, Na. destruct Ho as [H|H];
      [destruct (compid raw) | destruct (appid raw)]; try contradiction; simpl;
      auto using orb_true_r. }
  split.
  - apply export_fails. intros k.
    apply (attempt_body_fails _ _ _ _ _ _ (ensures_true _)). intros sc _ s.
    rewrite (report_stage_deploy_error db (lost k) _ (snd sc) s He' Ho').
    eexists; reflexivity.
  - intros Hc. apply export_no_sleep; [exact Hc|].
    apply (attempt_body_plain _ _ _ _ _ _ (ensures_true _)). intros sc _ s e.
    rewrite (report_stage_deploy_error db (lost 1) _ (snd sc) s He' Ho').
    intros E. injection E as <-. exact I.
Qed.

Lemma env_with_other_key_fails_witness :
  (exists msg, fst (export_sbom_trace 3 cfg_a db_env (fun _ => no_lost) http_down sess0
                      (mk_ids (Some "co42") None (Some "en7"))) = ErrorResponse 500 msg) /\
  snd (export_sbom_trace 3 cfg_a db_env (fun _ => no_lost) http_down sess0
         (mk_ids (Some "co42") None (Some "en7"))) = [].
Proof.
  assert (Ha1 : envid (mk_ids (Some "co42") None (Some "en7")) <> None) by discriminate.
  assert (Ha2 : compid (mk_ids (Some "co42") None (Some "en7")) <> None \/
                appid (mk_ids (Some "co42") None (Some "en7")) <> None) by (left; discriminate).
  pose proof (env_with_other_key_fails 3 cfg_a db_env (fun _ => no_lost) http_down sess0
                (mk_ids (Some "co42") None (Some "en7")) Ha1 Ha2) as [H1 H2].
  split; [exact H1 | exact (H2 eq_refl)].
Defined.

Lemma key_query_bad lost st s :
  pg_int s = None -> fails (key_query lost st s) /\
  (lost st = false -> raises_only plain_error (key_query lost st s)).
Proof.
  intros H. unfold key_query, key_param, from_option, bind, db_call. rewrite H.
  split.
  - intros sess. destruct (no_char nul s); [destruct (lost st)|]; eexists; reflexivity.
  - intros Hl sess e. rewrite Hl. destruct (no_char nul s); simpl;
      intros E; injection E as <-; exact I.
Qed.

(** Lines 309-320 and 376-382: a component key that the server's integer
    input refuses (after its prefix is stripped) makes the component
    package query fail at the cast of [:objid] (or, with an environment key
    as well, at the unbound [:objid]); the request is answered with a 500
    error, without a retry once the first attempt's [engine.connect()] and
    package query reach the server. *)
Theorem bad_component_key_fails n cfg db lost http sess raw c
  (Hc : compid (normalize_ids raw) = Some c) (Hbad : pg_int c = None) :
  (exists msg, fst (export_sbom_trace n cfg db lost http sess raw) = ErrorResponse 500 msg) /\
  (lost 1 Connect = false -> lost 1 ReadPkgs = false ->
   snd (export_sbom_trace n cfg db lost http sess raw) = []).
Proof.
  assert (Ho : is_some (compid (normalize_ids raw)) || is_some (appid (normalize_ids raw)) = true)
    by (rewrite Hc; reflexivity).
  assert (Hstage : forall l d, fails (report_stage db l (normalize_ids raw) d) /\
                    (l ReadPkgs = false ->
                     raises_only plain_error (report_stage db l (normalize_ids raw) d))).
  { intros l d. destruct (is_some (envid (normalize_ids raw))) eqn:He.
    - split; [intros s | intros _ s e];
        rewrite (report_stage_deploy_error db l _ d s He Ho);
        [eexists; reflexivity | intros E; injection E as <-; exact I].
    - destruct (key_query_bad l ReadPkgs c Hbad) as [Kf Kp].
      unfold report_stage, select_stmt. rewrite Hc, He. split.
      + apply fails_bind_l. unfold read_sql_pkgs. apply fails_bind. intros stage.
        apply fails_bind_l. exact Kf.
      + intros Hl. apply raises_bind_l.
        * unfold read_sql_pkgs. apply raises_bind; [apply raises_get_stage | intros stage].
          apply raises_bind_l; [exact (Kp Hl) | exact Kf].
        * unfold read_sql_pkgs. apply fails_bind. intros stage. apply fails_bind_l. exact Kf. }
  split.
  - apply export_fails. intros k.
    apply (attempt_body_fails _ _ _ _ _ _ (ensures_true _)). intros sc _.
    exact (proj1 (Hstage (lost k) (snd sc))).
  - intros H1 H2. apply export_no_sleep; [exact H1|].
    apply (attempt_body_plain _ _ _ _ _ _ (ensures_true _)). intros sc _.
    exact (proj2 (Hstage (lost 1) (snd sc)) H2).
Qed.

Lemma bad_component_key_fails_witness :
  exists msg, fst (export_sbom_trace 3 cfg_a db_a (fun _ => no_lost) http_down sess0
                     (mk_ids (Some "co4x") None None)) = ErrorResponse 500 msg.
Proof.
  exact (proj1 (bad_component_key_fails 3 cfg_a db_a (fun _ => no_lost) http_down sess0
                  (mk_ids (Some "co4x") None None) "4x" eq_refl eq_refl)).
Defined.

Lemma key_query_ensures lost st s : ensures (key_query lost st s) (fun k => pg_int s = Some k).
Proof.
  intros sess k sess'. unfold key_query, key_param, from_option, bind, db_call.
  destruct (no_char nul s); [destruct (lost st)|]; try discriminate.
  unfold ret. destruct (pg_int s); [intros E; injection E as <- _; reflexivity | discriminate].
Qed.

(** Lines 207-252 and 376-382: for an environment key alone that parses as
    [env], when no deployment-component row belongs to the environment's
    resolved deployments, [deploylist] is empty and the package query's
    [IN :deploy] gets an empty tuple, a syntax error: the request is
    answered with a 500 error instead of an empty report, without a retry
    once the first attempt's [engine.connect()] and package query reach the
    server. *)
Theorem env_without_components_fails n cfg db lost http sess e0 e env
  (Hn : normalize_envid (Some e0) = Some e) (Henv : pg_int e = Some env)
  (Hempty : env_comp_rows db env = []) :
  (exists msg, fst (export_sbom_trace n cfg db lost http sess (mk_ids None None (Some e0)))
               = ErrorResponse 500 msg) /\
  (lost 1 Connect = false -> lost 1 ReadPkgs = false ->
   snd (export_sbom_trace n cfg db lost http sess (mk_ids None None (Some e0))) = []).
Proof.
  assert (Ei : normalize_ids (mk_ids None None (Some e0)) = mk_ids None None (Some e)).
  { unfold normalize_ids. cbn [compid appid envid]. rewrite Hn. reflexivity. }
  assert (Hres : forall l, ensures (resolve_scope db l (mk_ids None None (Some e)))
                                   (fun sc => snd sc = [])).
  { intros l s sc s'. unfold resolve_scope, bind. cbn [appid envid]. unfold ret at 1.
    cbv beta iota. pose proof (key_query_ensures l EnvScope e s) as K.
    destruct (key_query l EnvScope e s) as [[x|k] s1]; [discriminate|].
    rewrite (K k s1 eq_refl) in Henv. injection Henv as ->. rewrite Hempty.
    unfold ret. intros E. injection E as <- _. reflexivity. }
  assert (Hread : forall l, fails (read_sql_pkgs db l SbomEnv (PDeploy [])) /\
            (l ReadPkgs = false -> raises_only plain_error (read_sql_pkgs db l SbomEnv (PDeploy [])))).
  { intros l. unfold read_sql_pkgs, bind, get_stage, db_call, raise, ret. split.
    - intros s. destruct (l ReadPkgs); eexists; reflexivity.
    - intros Hl s x. rewrite Hl. intros E. injection E as <-. exact I. }
  assert (Hstage : forall l (sc : list string * list Z), snd sc = [] ->
            report_stage db l (mk_ids None None (Some e)) (snd sc)
            = bind (read_sql_pkgs db l SbomEnv (PDeploy [])) (fun pkgs =>
                tabs <- match pkgs with
                        | [] => ret None
                        | _ => db_call l ReadVulns ;;;
                               staged <- get_staged_vulns ;;
                               ret (Some (package_tables true pkgs staged
                                                         (dm_vulns_persisted db)))
                        end ;;
                nm <- lookup_objname db l (mk_ids None None (Some e)) ;;
                comps <- component_summaries db l (mk_ids None None (Some e)) ;;
                ret (mk_report nm comps tabs))).
  { intros l sc ->. reflexivity. }
  split.
  - apply export_fails. intros k. rewrite Ei.
    apply (attempt_body_fails _ _ _ _ _ _ (Hres (lost k))). intros sc Hsc.
    rewrite (Hstage _ _ Hsc). apply fails_bind_l. exact (proj1 (Hread _)).
  - intros H1 H2. apply export_no_sleep; [exact H1|]. rewrite Ei.
    apply (attempt_body_plain _ _ _ _ _ _ (Hres (lost 1))). intros sc Hsc.
    rewrite (Hstage _ _ Hsc). apply raises_bind_l; [exact (proj2 (Hread _) H2) | exact (proj1 (Hread _))].
Qed.

Lemma env_without_components_fails_witness :
  exists msg, fst (export_sbom_trace 3 cfg_a db_env (fun _ => no_lost) http_down sess0
                     (mk_ids None None (Some "en 8"))) = ErrorResponse 500 msg.
Proof.
  exact (proj1 (env_without_components_fails 3 cfg_a db_env (fun _ => no_lost) http_down sess0
                  "en 8" " 8" 8 eq_refl eq_refl ltac:(vm_compute; reflexivity))).
Defined.

Lemma py_split_no_sep sep x :
  no_char sep x = true -> py_split sep x = [x].
Proof.
  induction x as [|c x IH]; simpl; [reflexivity|].
  intros H. apply andb_true_iff in H as [Hc Hx]. apply negb_true_iff in Hc.
  rewrite Hc, IH by exact Hx. reflexivity.
Qed.

Lemma py_split_app_sep sep x r :
  no_char sep x = true -> py_split sep (x ++ String sep r) = x :: py_split sep r.
Proof.
  induction x as [|c x IH]; simpl.
  - intros _. rewrite Ascii.eqb_refl. reflexivity.
  - intros H. apply andb_true_iff in H as [Hc Hx]. apply negb_true_iff in Hc.
    rewrite Hc, IH by exact Hx. reflexivity.
Qed.

Lemma digit_char_not_comma n :
  Ascii.eqb (ascii_of_N (48 + N.modulo n 10)) ","%char = false.
Proof.
  destruct (Ascii.eqb_spec (ascii_of_N (48 + N.modulo n 10)) ","%char) as [E|]; [|reflexivity].
  exfalso. pose proof (N.mod_lt n 10 ltac:(discriminate)) as Hm.
  assert (H : N_of_ascii (ascii_of_N (48 + N.modulo n 10)) = (48 + N.modulo n 10)%N)
    by (apply N_ascii_embedding; lia).
  rewrite E in H. change (N_of_ascii ","%char) with 44%N in H.
  clear E Hm. revert H. generalize (n mod 10)%N. intros m H. lia.
Qed.

Lemma dec_digits_no_comma fuel : forall n acc,
  no_char ","%char acc = true -> no_char ","%char (dec_digits fuel n acc) = true.
Proof.
  induction fuel as [|f IH]; intros n acc H; simpl; [exact H|].
  assert (H' : no_char ","%char (String (ascii_of_N (48 + N.modulo n 10)) acc) = true)
    by (cbn [no_char]; rewrite digit_char_not_comma; exact H).
  destruct (N.ltb n 10); [exact H' | exact (IH _ _ H')].
Qed.

Lemma py_str_int_no_comma z : no_char ","%char (py_str_int z) = true.
Proof.
  destruct z; unfold py_str_int; apply dec_digits_no_comma; reflexivity.
Qed.

(** Lines 260 and 287: with component ids [zs] (non-empty) the [appid]
    parameter of the deppkg request is [",".join] of their decimal texts,
    and splitting it at the commas gives those texts back, one field per
    component; with no component it is the empty string, which splits to
    one empty field. *)
Theorem appid_param_roundtrip (zs : list Z) (Hne : zs <> []) :
  py_split ","%char (join_comma (map py_str_int zs)) = map py_str_int zs.
Proof.
  induction zs as [|z zs IH]; [contradiction|].
  destruct zs as [|z' zs'].
  - apply py_split_no_sep, py_str_int_no_comma.
  - change (join_comma (map py_str_int (z :: z' :: zs')))
      with (py_str_int z ++ String ","%char (join_comma (map py_str_int (z' :: zs')))).
    rewrite py_split_app_sep by apply py_str_int_no_comma. rewrite IH by discriminate.
    reflexivity.
Qed.

Lemma appid_param_roundtrip_witness :
  [1; -23; 450]%Z <> [] /\
  py_split ","%char (join_comma (map py_str_int [1; -23; 450]%Z))
  = map py_str_int [1; -23; 450]%Z.
Proof.
  split; [discriminate | apply appid_param_roundtrip; discriminate].
Defined.
